(** * jquery.piechart.js (jQuery Piechart v1.0): shallow embedding

    The plugin is embedded function by function.  JavaScript numbers are
    IEEE-754 binary64 values, so they are Rocq's primitive floats and the
    arithmetic of the source ([+], [-], [/], [===], [>]) is the arithmetic
    of [PrimFloat].  Objects that the source mutates ([options.percentages],
    the container element, the canvas, the fields of the chart) live in an
    explicit state, threaded by a small state-and-exception monad: a
    [throw] keeps every mutation made before it, as in JavaScript. *)

From Stdlib Require Import ZArith String Ascii List Floats Lia.
From stdpp Require Import gmap strings list.

(** ** JavaScript values and control flow *)

Abbreviation number := float (only parsing).

(** What a [throw] carries: the source throws plain strings; the runtime
    throws a [TypeError] when a property of [undefined] is read, and the
    canvas context throws an [IndexSizeError] out of [arc]. *)
Inductive exn : Type :=
  | ThrowString (msg : string)
  | TypeError
  | IndexSizeError.

Inductive completion (A : Type) : Type :=
  | Normal (a : A)
  | Throw (e : exn).
Arguments Normal {A} a.
Arguments Throw {A} e.

(** A computation over a mutable state [S]. *)
Definition js (S A : Type) : Type := S → completion A * S.

#[global] Instance js_ret {S} : MRet (js S) := λ A a s, (Normal a, s).
#[global] Instance js_bind {S} : MBind (js S) := λ A B f m s,
  match m s with
  | (Normal a, s') => f a s'
  | (Throw e, s') => (Throw e, s')
  end.
#[global] Instance js_throw {S} : MThrow exn (js S) := λ A e s, (Throw e, s).

Definition get {S} : js S S := λ s, (Normal s, s).
Definition put {S} (s : S) : js S unit := λ _, (Normal tt, s).
Definition modify {S} (f : S → S) : js S unit := λ s, (Normal tt, f s).

(** [for] loops: the body is run for each index in turn, the loop's local
    variables being the accumulator. *)
Fixpoint foldM {S A B} (body : B → A → js S B) (l : list A) (b : B) : js S B :=
  match l with
  | [] => mret b
  | x :: l' => b' ← body b x; foldM body l' b'
  end.

(** Reading [a[i]] in an arithmetic context: a missing element is
    [undefined], which arithmetic turns into NaN. *)
Definition readNumber (a : list number) (i : nat) : number :=
  default nan (a !! i).

(** ** Strings and colours: [toLowerCase], [toString(16)], [slice(-6)] *)

(** [String.prototype.toLowerCase] on the ASCII range (colour strings are
    ASCII): the letters A..Z move to a..z, every other byte stays. *)
Definition lowerAscii (c : ascii) : ascii :=
  let n := nat_of_ascii c in
  if (65 <=? n)%nat && (n <=? 90)%nat then ascii_of_nat (n + 32) else c.

Fixpoint toLowerCase (s : string) : string :=
  match s with
  | EmptyString => EmptyString
  | String c s' => String (lowerAscii c) (toLowerCase s')
  end.

Definition hexDigit (d : Z) : ascii :=
  match d with
  | 0 => "0" | 1 => "1" | 2 => "2" | 3 => "3" | 4 => "4" | 5 => "5"
  | 6 => "6" | 7 => "7" | 8 => "8" | 9 => "9" | 10 => "a" | 11 => "b"
  | 12 => "c" | 13 => "d" | 14 => "e" | _ => "f"
  end%Z%char.

(** Digits of a non-negative integer in base 16, most significant first,
    no leading zero; [fuel] bounds the number of digits. *)
Fixpoint toHex (fuel : nat) (n : Z) : string :=
  match fuel with
  | O => EmptyString
  | S fuel' =>
      if (n <? 16)%Z then String (hexDigit n) EmptyString
      else toHex fuel' (n / 16) +:+ String (hexDigit (n mod 16)) EmptyString
  end.

(** [Number.prototype.toString(16)] on a 32-bit integer (eight digits at
    most). *)
Definition toString16 (n : Z) : string :=
  if (n <? 0)%Z then String "-" (toHex 8 (- n)) else toHex 8 n.

(** The 32-bit integer operations of JavaScript, with their wrap-around. *)
Definition ToInt32 (z : Z) : Z := ((z + 2 ^ 31) mod 2 ^ 32 - 2 ^ 31)%Z.
Definition shl32 (x n : Z) : Z := ToInt32 (Z.shiftl (ToInt32 x) (n mod 32)).
Definition or32 (x y : Z) : Z := Z.lor (ToInt32 x) (ToInt32 y).

(** [function rgbToHex(r, g, b)] *)
Definition rgbToHex {S} (r g b : Z) : js S string :=
  if (r >? 255)%Z || (g >? 255)%Z || (b >? 255)%Z
  then mthrow (ThrowString "Invalid color component")
  else mret (toString16 (or32 (or32 (shl32 r 16) (shl32 g 8)) b)).

Fixpoint dropString (n : nat) (s : string) : string :=
  match n, s with
  | O, _ => s
  | S n', String _ s' => dropString n' s'
  | S _, EmptyString => EmptyString
  end.

(** [s.slice(-k)]: the last [k] characters of [s] (all of it when it is
    shorter). *)
Definition sliceLast (k : nat) (s : string) : string :=
  dropString (String.length s - k) s.

(** The key under which the handler looks a pixel up:
    ['#' + ('000000' + rgbToHex(p[0], p[1], p[2])).slice(-6)]. *)
Definition pixelKey {S} (r g b : Z) : js S string :=
  h ← rgbToHex r g b; mret (String "#" (sliceLast 6 ("000000" +:+ h))).

(** ** The host canvas: which pixel a fill colour paints

    Not code of the repository: the 2D context parses [fillStyle] as a CSS
    colour.  Only the forms the plugin's own colour schemes use are
    modelled: [#rrggbb], [#rgb] (each digit doubled) and the six names of
    the RAINBOW scheme (names are case-insensitive). *)
Definition hexValue (c : ascii) : option Z :=
  let n := Z.of_nat (nat_of_ascii c) in
  if (48 <=? n)%Z && (n <=? 57)%Z then Some (n - 48)%Z
  else if (97 <=? n)%Z && (n <=? 102)%Z then Some (n - 87)%Z
  else if (65 <=? n)%Z && (n <=? 70)%Z then Some (n - 55)%Z
  else None.

Definition hexPair (h l : ascii) : option Z :=
  vh ← hexValue h; vl ← hexValue l; Some (16 * vh + vl)%Z.

Definition namedColor (s : string) : option (Z * Z * Z) :=
  if String.eqb s "red" then Some (255, 0, 0)%Z
  else if String.eqb s "orange" then Some (255, 165, 0)%Z
  else if String.eqb s "yellow" then Some (255, 255, 0)%Z
  else if String.eqb s "green" then Some (0, 128, 0)%Z
  else if String.eqb s "blue" then Some (0, 0, 255)%Z
  else if String.eqb s "violet" then Some (238, 130, 238)%Z
  else None.

Definition fillRGB (c : string) : option (Z * Z * Z) :=
  match c with
  | String "#" (String r1 (String r2 (String g1 (String g2
      (String b1 (String b2 EmptyString)))))) =>
      r ← hexPair r1 r2; g ← hexPair g1 g2; b ← hexPair b1 b2; Some (r, g, b)
  | String "#" (String r1 (String g1 (String b1 EmptyString))) =>
      r ← hexPair r1 r1; g ← hexPair g1 g1; b ← hexPair b1 b1; Some (r, g, b)
  | _ => namedColor (toLowerCase c)
  end.

(** A colour written as [#] and six hexadecimal digits, in any case. *)
Definition isHex6 (c : string) : bool :=
  match c with
  | String "#" (String r1 (String r2 (String g1 (String g2
      (String b1 (String b2 EmptyString)))))) =>
      bool_decide (is_Some (hexValue r1)) && bool_decide (is_Some (hexValue r2))
      && bool_decide (is_Some (hexValue g1)) && bool_decide (is_Some (hexValue g2))
      && bool_decide (is_Some (hexValue b1)) && bool_decide (is_Some (hexValue b2))
  | _ => false
  end.

(** ** Options, [$.fn.piechart.colorSchemes] and [$.fn.piechart.defaults] *)

Record Options : Type := {
  borderColor : string;
  borderWidth : number;
  chartClass : string;
  chartSide : string;
  colors : list string;
  height : number;
  labels : list string;
  legendClass : string;
  percentages : list number;
  showLegend : bool;
  title : string;
  titleClass : string;
  titleJustify : string
}.

(** [options.percentages] is an array object: [$.extend] copies the
    reference, so the array the plugin writes to is the caller's. *)
Definition setPercentages (a : list number) (o : Options) : Options :=
  {| borderColor := borderColor o; borderWidth := borderWidth o;
     chartClass := chartClass o; chartSide := chartSide o; colors := colors o;
     height := height o; labels := labels o; legendClass := legendClass o;
     percentages := a; showLegend := showLegend o; title := title o;
     titleClass := titleClass o; titleJustify := titleJustify o |}.

(** Three of the eleven preset schemes. *)
Module colorSchemes.
Definition EASTER : list string :=
  [ "#F7F7B1"; "#BDDA5D"; "#DAEFF1"; "#D1C4DD"; "#FFE4E5";
    "#B3DBE3"; "#E5F7B1"; "#FFCACC"; "#E8E2EE"; "#C9E7F9" ].
Definition RAINBOW : list string :=
  [ "red"; "orange"; "yellow"; "green"; "blue"; "violet" ].
Definition CAKE : list string :=
  [ "#774F38"; "#E08E79"; "#F1D4AF"; "#ECE5CE"; "#C5E0DC" ].
End colorSchemes.

Definition defaults : Options :=
  {| borderColor := "#fff"; borderWidth := 0%float; chartClass := "";
     chartSide := "left"; colors := colorSchemes.EASTER; height := 300%float;
     labels := [ ""; "" ]; legendClass := "";
     percentages := [ 75%float; 25%float ]; showLegend := false; title := "";
     titleClass := ""; titleJustify := "left" |}.

(** ** The objects of the plugin *)

(** [radians]: start and end of a piece, as fractions of the full turn. *)
Record Radians : Type := { start : number; end_ : number }.

(** [Piece]: the fields its constructor copies out of [pieceOptions].
    [color] is [options.colors[i]], [None] standing for [undefined]. *)
Module Piece.
Record t : Type := {
  color : option string;
  radians : Radians;
  borderWidth : number;
  borderColor : string
}.
End Piece.

(** One wedge painted by [Piece.prototype.draw]: the arguments it gives
    to [arc], the fill style and, when the border is drawn, the stroke
    style and line width. *)
Record Wedge : Type := {
  center : number;
  radius : number;
  startAngle : number;
  endAngle : number;
  fillStyle : option string;
  stroke : option (string * number)
}.

(** The [$label] object built by [Legend] for one label: [node] is the
    identity of the object (objects are compared by reference).  [Legend]
    makes it from a string of HTML, [<div class=label>], the swatch,
    [content] and [</div>]: [swatch] is the background given to the
    swatch and [content] is the source text that follows it, in which
    [labels[i]] is spliced as it is.  jQuery parses that string, markup
    inside [labels[i]] included. *)
Record Label : Type := {
  node : nat;
  swatch : option string;
  content : string;
  marginTop : bool
}.

Record LegendItem : Type := { label : Label; colorPart : option string }.

(** [Legend]: [this.item], an object used as a map from colour strings. *)
Record Legend : Type := { item : gmap string LegendItem }.

(** Children of the container element. *)
Inductive Node : Type :=
  | CanvasNode (class : string)
  | HeaderNode (titleText : string) (float : option string) (class : string)
  | LegendOuterNode (class : string).

(** [prevPiece] and [currPiece] hold [undefined], [''] or a [$label]. *)
Inductive PieceRef : Type :=
  | Undefined
  | EmptyStr
  | LabelRef (l : Label).

(** Calls of the two static effect functions. *)
Inductive Effect : Type :=
  | AddEffects (it : Label) (color : string)
  | ClearEffects (it : Label).

(** A [PieChart] object together with what it owns on the page;
    [canvasWidth] is the [width] attribute of the element [this.$canvas]
    (a new canvas is 300 wide). *)
Record PieChart : Type := {
  pieces : list Piece.t;
  element : list Node;
  options : Options;
  canvas : list Wedge;
  canvasWidth : Z;
  legendDiv : list Label;
  legend : option Legend;
  header : bool;
  mousemove : bool;
  mouseleave : bool;
  prevPiece : PieceRef;
  currPiece : PieceRef;
  effects : list Effect
}.

Definition setPieces (x : list Piece.t) (s : PieChart) : PieChart :=
  {| pieces := x; element := element s; options := options s; canvas := canvas s;
     canvasWidth := canvasWidth s; legendDiv := legendDiv s; legend := legend s; header := header s;
     mousemove := mousemove s; mouseleave := mouseleave s;
     prevPiece := prevPiece s; currPiece := currPiece s; effects := effects s |}.
Definition setElement (x : list Node) (s : PieChart) : PieChart :=
  {| pieces := pieces s; element := x; options := options s; canvas := canvas s;
     canvasWidth := canvasWidth s; legendDiv := legendDiv s; legend := legend s; header := header s;
     mousemove := mousemove s; mouseleave := mouseleave s;
     prevPiece := prevPiece s; currPiece := currPiece s; effects := effects s |}.
Definition setOptions (x : Options) (s : PieChart) : PieChart :=
  {| pieces := pieces s; element := element s; options := x; canvas := canvas s;
     canvasWidth := canvasWidth s; legendDiv := legendDiv s; legend := legend s; header := header s;
     mousemove := mousemove s; mouseleave := mouseleave s;
     prevPiece := prevPiece s; currPiece := currPiece s; effects := effects s |}.
Definition setCanvas (x : list Wedge) (s : PieChart) : PieChart :=
  {| pieces := pieces s; element := element s; options := options s; canvas := x;
     canvasWidth := canvasWidth s; legendDiv := legendDiv s; legend := legend s; header := header s;
     mousemove := mousemove s; mouseleave := mouseleave s;
     prevPiece := prevPiece s; currPiece := currPiece s; effects := effects s |}.
Definition setLegendDiv (x : list Label) (s : PieChart) : PieChart :=
  {| pieces := pieces s; element := element s; options := options s; canvas := canvas s;
     canvasWidth := canvasWidth s; legendDiv := x; legend := legend s; header := header s;
     mousemove := mousemove s; mouseleave := mouseleave s;
     prevPiece := prevPiece s; currPiece := currPiece s; effects := effects s |}.
Definition setLegend (x : option Legend) (s : PieChart) : PieChart :=
  {| pieces := pieces s; element := element s; options := options s; canvas := canvas s;
     canvasWidth := canvasWidth s; legendDiv := legendDiv s; legend := x; header := header s;
     mousemove := mousemove s; mouseleave := mouseleave s;
     prevPiece := prevPiece s; currPiece := currPiece s; effects := effects s |}.
Definition setHeader (x : bool) (s : PieChart) : PieChart :=
  {| pieces := pieces s; element := element s; options := options s; canvas := canvas s;
     canvasWidth := canvasWidth s; legendDiv := legendDiv s; legend := legend s; header := x;
     mousemove := mousemove s; mouseleave := mouseleave s;
     prevPiece := prevPiece s; currPiece := currPiece s; effects := effects s |}.
Definition setMousemove (x : bool) (s : PieChart) : PieChart :=
  {| pieces := pieces s; element := element s; options := options s; canvas := canvas s;
     canvasWidth := canvasWidth s; legendDiv := legendDiv s; legend := legend s; header := header s;
     mousemove := x; mouseleave := mouseleave s;
     prevPiece := prevPiece s; currPiece := currPiece s; effects := effects s |}.
Definition setMouseleave (x : bool) (s : PieChart) : PieChart :=
  {| pieces := pieces s; element := element s; options := options s; canvas := canvas s;
     canvasWidth := canvasWidth s; legendDiv := legendDiv s; legend := legend s; header := header s;
     mousemove := mousemove s; mouseleave := x;
     prevPiece := prevPiece s; currPiece := currPiece s; effects := effects s |}.
Definition setPrevPiece (x : PieceRef) (s : PieChart) : PieChart :=
  {| pieces := pieces s; element := element s; options := options s; canvas := canvas s;
     canvasWidth := canvasWidth s; legendDiv := legendDiv s; legend := legend s; header := header s;
     mousemove := mousemove s; mouseleave := mouseleave s;
     prevPiece := x; currPiece := currPiece s; effects := effects s |}.
Definition setCurrPiece (x : PieceRef) (s : PieChart) : PieChart :=
  {| pieces := pieces s; element := element s; options := options s; canvas := canvas s;
     canvasWidth := canvasWidth s; legendDiv := legendDiv s; legend := legend s; header := header s;
     mousemove := mousemove s; mouseleave := mouseleave s;
     prevPiece := prevPiece s; currPiece := x; effects := effects s |}.
Definition setCanvasWidth (x : Z) (s : PieChart) : PieChart :=
  {| pieces := pieces s; element := element s; options := options s; canvas := canvas s;
     canvasWidth := x; legendDiv := legendDiv s; legend := legend s; header := header s;
     mousemove := mousemove s; mouseleave := mouseleave s;
     prevPiece := prevPiece s; currPiece := currPiece s; effects := effects s |}.
Definition setEffects (x : list Effect) (s : PieChart) : PieChart :=
  {| pieces := pieces s; element := element s; options := options s; canvas := canvas s;
     canvasWidth := canvasWidth s; legendDiv := legendDiv s; legend := legend s; header := header s;
     mousemove := mousemove s; mouseleave := mouseleave s;
     prevPiece := prevPiece s; currPiece := currPiece s; effects := x |}.

(** Run a computation on the array [options.percentages] inside a chart. *)
Definition onPercentages {A} (m : js (list number) A) : js PieChart A :=
  λ s, let '(r, a) := m (percentages (options s)) in
       (r, setOptions (setPercentages a (options s)) s).

(** ** The host canvas: the [width] attribute and [arc]

    Not code of the repository.  [canvas.width] is an attribute of type
    [unsigned long]: a number assigned to it is converted as Web IDL
    says (NaN and the infinities give 0, the fraction is dropped, the
    result is taken modulo 2^32), and a result above 2147483647 is
    replaced by the default width 300.  [$canvas.width()] then reads that
    width back: the canvas is taken to be laid out at the size of its
    attribute, the plugin giving it no other width.  [arc] returns at
    once when an argument is not finite, and otherwise throws an
    [IndexSizeError] when the radius is negative. *)
Definition truncate (x : number) : Z :=
  match Prim2SF x with
  | S754_finite sign m e =>
      let a := Z.shiftl (Z.pos m) e in if sign then (- a)%Z else a
  | _ => 0%Z
  end.

Definition unsignedLong (x : number) : Z := (truncate x mod 2 ^ 32)%Z.

Definition widthAttribute (x : number) : Z :=
  let n := unsignedLong x in if (n <=? 2147483647)%Z then n else 300%Z.

Definition widthNumber (w : Z) : number := of_uint63 (Uint63.of_Z w).

Definition arc {S} (x y radius startAngle endAngle : number) : js S unit :=
  if negb (is_finite x && is_finite y && is_finite radius
           && is_finite startAngle && is_finite endAngle)
  then mret tt
  else if (radius <? 0)%float then mthrow IndexSizeError
  else mret tt.

(** ** [Piece.prototype.draw] and [PieChart.prototype.display] *)

Definition Math_PI : number := 0x1.921fb54442d18p+1%float.

(** [draw]: one filled wedge on the canvas, stroked when
    [this.borderWidth !== 0]; [$canvas.width()] is the width of the
    canvas.  Nothing is painted when [arc] throws. *)
Definition draw (p : Piece.t) : js PieChart unit :=
  s ← get;
  let width := widthNumber (canvasWidth s) in
  let radius := (width / 2 - 20)%float in
  let center := (width / 2)%float in
  let radians := Piece.radians p in
  arc center center radius
    (2 * Math_PI * start radians)%float (2 * Math_PI * end_ radians)%float;;
  modify (λ s, setCanvas (canvas s ++ [
    {| center := center; radius := radius;
       startAngle := (2 * Math_PI * start radians)%float;
       endAngle := (2 * Math_PI * end_ radians)%float;
       fillStyle := Piece.color p;
       stroke := if negb (Piece.borderWidth p =? 0)%float
                 then Some (Piece.borderColor p, Piece.borderWidth p)
                 else None |} ]) s).

(** [pieces[i].draw(options)]: a missing piece is [undefined]. *)
Definition displayStep (_ : unit) (i : nat) : js PieChart unit :=
  s ← get;
  match pieces s !! i with
  | Some p => draw p
  | None => mthrow TypeError
  end.

Definition display : js PieChart unit :=
  s ← get;
  foldM displayStep (seq 0 (length (percentages (options s)))) tt.

(** ** [PieChart.prototype.initPieces] *)

Definition invalidPercentages : exn := ThrowString "Invalid percentage values".
Definition notEnoughColors : exn := ThrowString "Not enough colors given.".

(** "check if enough colors were given" *)
Definition checkColors (divisions : nat) : js PieChart unit :=
  s ← get;
  if (length (colors (options s)) <? divisions)%nat
  then mthrow notEnoughColors
  else mret tt.

(** [percentages[percentages.length-1] === 100] *)
Definition lastIs100 (a : list number) : bool :=
  match a !! (length a - 1)%nat with
  | Some x => (x =? 100)%float
  | None => false
  end.

(** One turn of the rewriting loop; the result is the next [prevNum]. *)
Definition changeFormatStep (prevNum : number) (i : nat) : js (list number) number :=
  a ← get;
  let perc := readNumber a i in
  if (perc <? prevNum)%float then mthrow invalidPercentages
  else put (<[i := (perc - prevNum)%float]> a);; mret perc.

(** "change format of percentages if given in running total": the array
    is rewritten in place, element by element. *)
Definition changeFormat (divisions : nat) : js (list number) unit :=
  a ← get;
  if lastIs100 a then
    foldM changeFormatStep (seq 0 divisions) 0%float;; mret tt
  else mret tt.

(** [totalPerc] after the loop [for (var i = divisions; i--; )]. *)
Definition totalPerc (divisions : nat) (a : list number) : number :=
  foldl (λ t i, (t + readNumber a i)%float) 0%float (rev (seq 0 divisions)).

(** "check if total percentages equals 100" *)
Definition checkTotal (divisions : nat) : js (list number) unit :=
  a ← get;
  if (totalPerc divisions a =? 100)%float then mret tt
  else mthrow invalidPercentages.

(** The normalisation of the percentages: both steps, on the array. *)
Definition normalize (divisions : nat) : js (list number) unit :=
  changeFormat divisions;; checkTotal divisions.

(** One turn of the loop that makes the pieces; the result is the next
    [prevPos]. *)
Definition createPiece (prevPos : number) (i : nat) : js PieChart number :=
  s ← get;
  let o := options s in
  let radians :=
    {| start := prevPos;
       end_ := (prevPos + readNumber (percentages o) i / 100)%float |} in
  modify (λ s, setPieces (pieces s ++ [
    {| Piece.color := colors o !! i; Piece.radians := radians;
       Piece.borderWidth := borderWidth o;
       Piece.borderColor := borderColor o |} ]) s);;
  mret (end_ radians).

(** "generate the radians and create each new Piece" *)
Definition createPieces (divisions : nat) : js PieChart unit :=
  foldM createPiece (seq 0 divisions) 0%float;; mret tt.

(** [initPieces]: [divisions] is the length of the array on entry. *)
Definition initPieces : js PieChart unit :=
  s ← get;
  let divisions := length (percentages (options s)) in
  checkColors divisions;;
  onPercentages (normalize divisions);;
  createPieces divisions.

(** ** [Header] and [Legend] *)

(** The [$header] block: the title, floated as [titleJustify] says. *)
Definition headerNode (o : Options) : Node :=
  HeaderNode (title o)
    (if String.eqb (titleJustify o) "left" then Some "left"
     else if String.eqb (titleJustify o) "right" then Some "right"
     else None)
    (titleClass o).

(** [Header]: [$element.prepend($header)]. *)
Definition initHeader : js PieChart unit :=
  modify (λ s, setHeader true (setElement (headerNode (options s) :: element s) s)).

(** Where [Legend] puts its block: first when the chart is on the right,
    last otherwise. *)
Definition placeLegend (o : Options) (children : list Node) : list Node :=
  if String.eqb (chartSide o) "right"
  then LegendOuterNode (legendClass o) :: children
  else children ++ [LegendOuterNode (legendClass o)].

(** ['<span style="margin-left: 5px;">' + labels[i] + '</span>'] *)
Definition labelSpan (l : string) : string :=
  "<span style=" +:+ String "034" "margin-left: 5px;" +:+ String "034" ">"
  +:+ l +:+ "</span>".

(** The [$label] made for index [i]: the swatch with
    [options.colors[i]] as background, then [labels[i]] inside its
    [span], a top margin for every label but the first. *)
Definition labelOf (o : Options) (i : nat) : Label :=
  {| node := i; swatch := colors o !! i;
     content := labelSpan (default "" (labels o !! i));
     marginTop := (0 <? i)%nat |}.

(** One turn of the loop "add the labels". *)
Definition addLabel (o : Options) (item : gmap string LegendItem) (i : nat)
  : js PieChart (gmap string LegendItem) :=
  modify (λ s, setLegendDiv (legendDiv s ++ [labelOf o i]) s);;
  match colors o !! i with
  | Some c =>
      mret (<[toLowerCase c := {| label := labelOf o i; colorPart := Some c |}]> item)
  | None => mthrow TypeError
  end.

(** [new Legend(element, options)]: the legend block is put into the
    container, then one label is made per element of [options.labels];
    [this.item] receives it under [options.colors[i].toLowerCase()], which
    throws when there is no such colour. *)
Definition Legend_new : js PieChart Legend :=
  s ← get;
  let o := options s in
  modify (λ s, setElement (placeLegend o (element s)) s);;
  it ← foldM (addLabel o) (seq 0 (length (labels o))) ∅;
  mret {| item := it |}.

(** [PieChart.prototype.initLegend]: [this.legend] is set only if the
    constructor of the legend returns. *)
Definition initLegend : js PieChart unit :=
  lg ← Legend_new; modify (setLegend (Some lg)).

(** ** [PieChart.prototype.init] and the constructor *)

(** [init]: the canvas goes into the container and gets
    [options.height] as its width, then the legend (when
    [options.showLegend]), the header and the pieces are made, and only
    then are the two handlers bound and [prevPiece] set to ['']. *)
Definition init : js PieChart unit :=
  s ← get;
  modify (λ s, setElement (element s ++ [CanvasNode (chartClass (options s))]) s);;
  modify (λ s, setCanvasWidth (widthAttribute (height (options s))) s);;
  (if showLegend (options s) then initLegend else mret tt);;
  initHeader;;
  initPieces;;
  modify (setMousemove true);;
  modify (setMouseleave true);;
  modify (setPrevPiece EmptyStr).

(** The chart object as the constructor finds it: [this.pieces = []] and
    nothing else set; the canvas [init] is about to make is 300 wide, as
    every new canvas. *)
Definition newChart (element : list Node) (options : Options) : PieChart :=
  {| pieces := []; element := element; options := options; canvas := [];
     canvasWidth := 300;
     legendDiv := []; legend := None; header := false; mousemove := false;
     mouseleave := false; prevPiece := Undefined; currPiece := Undefined;
     effects := [] |}.

(** [new PieChart(element, options)]: the completion and the state it
    leaves behind. *)
Definition PieChart_new (element : list Node) (options : Options)
  : completion unit * PieChart :=
  (init;; display) (newChart element options).

(** ** The hover handlers *)

(** The pixel read back by [getImageData(mouseX, mouseY, 1, 1).data]:
    four channels, each in 0..255 (a clamped byte array). *)
Record ImageData : Type := { p0 : Z; p1 : Z; p2 : Z; p3 : Z }.

Definition validPixel (p : ImageData) : Prop :=
  (0 ≤ p0 p ≤ 255 ∧ 0 ≤ p1 p ≤ 255 ∧ 0 ≤ p2 p ≤ 255 ∧ 0 ≤ p3 p ≤ 255)%Z.

(** [PieChart.clearEffects(item)] and [PieChart.addEffects(item, color)]:
    [item.css] exists only on a [$label]. *)
Definition clearEffects (it : PieceRef) : js PieChart unit :=
  match it with
  | LabelRef l => modify (λ s, setEffects (effects s ++ [ClearEffects l]) s)
  | _ => mthrow TypeError
  end.

Definition addEffects (it : PieceRef) (color : string) : js PieChart unit :=
  match it with
  | LabelRef l => modify (λ s, setEffects (effects s ++ [AddEffects l color]) s)
  | _ => mthrow TypeError
  end.

(** [a !== b] is [negb (strictEq a b)]: objects are equal when they are
    the same object. *)
Definition strictEq (a b : PieceRef) : bool :=
  match a, b with
  | Undefined, Undefined => true
  | EmptyStr, EmptyStr => true
  | LabelRef l1, LabelRef l2 => (node l1 =? node l2)%nat
  | _, _ => false
  end.

(** [x != ''] *)
Definition notEmpty (x : PieceRef) : bool :=
  match x with
  | EmptyStr => false
  | _ => true
  end.

(** The first branch of the handler: the pixel resolved to [entry]. *)
Definition hoverOn (entry : LegendItem) (hex : string) : js PieChart unit :=
  modify (setCurrPiece (LabelRef (label entry)));;
  s ← get;
  (if negb (strictEq (prevPiece s) (currPiece s)) then
     (if notEmpty (prevPiece s) then clearEffects (prevPiece s) else mret tt);;
     addEffects (currPiece s) hex
   else mret tt);;
  modify (λ s, setPrevPiece (currPiece s) s).

(** The [else] branch: nothing under the pointer. *)
Definition hoverOff : js PieChart unit :=
  s ← get;
  if notEmpty (prevPiece s)
  then clearEffects (prevPiece s);; modify (setPrevPiece EmptyStr)
  else mret tt.

(** [p[3] != 0 && piechart.legend.item[hex] != undefined], with the entry
    found: the legend is read only when the pixel is not transparent. *)
Definition resolve (p : ImageData) (hex : string) : js PieChart (option LegendItem) :=
  s ← get;
  if negb (p3 p =? 0)%Z then
    match legend s with
    | Some lg => mret (item lg !! hex)
    | None => mthrow TypeError
    end
  else mret None.

(** The handler returned by [PieChart.prototype.onhover], applied to an
    event whose pixel read-back is [p]. *)
Definition onhover (p : ImageData) : js PieChart unit :=
  hex ← pixelKey (p0 p) (p1 p) (p2 p);
  found ← resolve p hex;
  match found with
  | Some entry => hoverOn entry hex
  | None => hoverOff
  end.

(** The handler returned by [PieChart.prototype.onmouseleave]. *)
Definition onmouseleave : js PieChart unit :=
  s ← get;
  if notEmpty (prevPiece s) then clearEffects (prevPiece s) else mret tt.

(** Events reach a handler once [init] has bound it. *)
Inductive Event : Type :=
  | MouseMove (p : ImageData)
  | MouseLeave.

Definition dispatch (e : Event) : js PieChart unit :=
  s ← get;
  match e with
  | MouseMove p => if mousemove s then onhover p else mret tt
  | MouseLeave => if mouseleave s then onmouseleave else mret tt
  end.

(** Counting the calls of [addEffects] in a log. *)
Definition isAdd (e : Effect) : bool :=
  match e with AddEffects _ _ => true | ClearEffects _ => false end.
Definition countAdd (l : list Effect) : nat := length (List.filter isAdd l).

(** ** Closed forms used to state the properties

    Each is proved below to be what the corresponding loop of the source
    computes. *)

(** The running-total reading of the specification:
    [share[i] = total[i] - total[i-1]], with [total[-1] = prev]. *)
Fixpoint differences (prev : number) (totals : list number) : list number :=
  match totals with
  | [] => []
  | t :: r => (t - prev)%float :: differences t r
  end.

(** [total[i-1]], with [total[-1] = prev]. *)
Definition beforeFrom (prev : number) (totals : list number) (i : nat) : number :=
  match i with
  | O => prev
  | S j => readNumber totals j
  end.

Definition before (totals : list number) (i : nat) : number :=
  beforeFrom 0%float totals i.

(** Some [total[i] < total[i-1]], with [total[-1] = prev]. *)
Fixpoint decreasing (prev : number) (totals : list number) : bool :=
  match totals with
  | [] => false
  | t :: r => (t <? prev)%float || decreasing t r
  end.

(** What the rewriting loop leaves in the array: differences up to the
    first element smaller than its predecessor, the rest untouched. *)
Fixpoint rewritten (prev : number) (totals : list number) : list number :=
  match totals with
  | [] => []
  | t :: r => if (t <? prev)%float then t :: r
              else (t - prev)%float :: rewritten t r
  end.

(** The sum as the source adds it up: from the last element to the first. *)
Definition sumFromLast (a : list number) : number :=
  foldr (λ p t, (t + p)%float) 0%float a.

(** The shares of an input: its differences when it is in running-total
    form, itself otherwise. *)
Definition shares (a : list number) : list number :=
  if lastIs100 a then differences 0%float a else a.

(** The pieces for the shares [a], from index [i] and position [prevPos]. *)
Fixpoint piecesFrom (o : Options) (i : nat) (prevPos : number) (a : list number)
  : list Piece.t :=
  match a with
  | [] => []
  | p :: r =>
      let e := (prevPos + p / 100)%float in
      {| Piece.color := colors o !! i;
         Piece.radians := {| start := prevPos; end_ := e |};
         Piece.borderWidth := borderWidth o;
         Piece.borderColor := borderColor o |} :: piecesFrom o (S i) e r
  end.

(** The running fraction after the shares [a], starting from [pos]. *)
Definition runningFractionFrom (pos : number) (a : list number) : number :=
  foldl (λ pos p, (pos + p / 100)%float) pos a.

Definition runningFraction (a : list number) : number :=
  runningFractionFrom 0%float a.

(** The wedge [draw] paints for a piece, on the canvas [init] has made
    for the options [o]. *)
Definition wedgeOf (o : Options) (p : Piece.t) : Wedge :=
  let width := widthNumber (widthAttribute (height o)) in
  {| center := (width / 2)%float; radius := (width / 2 - 20)%float;
     startAngle := (2 * Math_PI * start (Piece.radians p))%float;
     endAngle := (2 * Math_PI * end_ (Piece.radians p))%float;
     fillStyle := Piece.color p;
     stroke := if negb (Piece.borderWidth p =? 0)%float
               then Some (Piece.borderColor p, Piece.borderWidth p)
               else None |}.

(** [arc] throws for the wedge [w]: the radius is negative, and every
    argument is finite. *)
Definition arcThrows (w : Wedge) : bool :=
  is_finite (center w) && is_finite (radius w)
  && is_finite (startAngle w) && is_finite (endAngle w)
  && (radius w <? 0)%float.

(** The wedges painted before the first one for which [arc] throws. *)
Fixpoint painted (ws : list Wedge) : list Wedge :=
  match ws with
  | [] => []
  | w :: r => if arcThrows w then [] else w :: painted r
  end.

(** The legend entry made for index [i]. *)
Definition entryOf (o : Options) (i : nat) : LegendItem :=
  {| label := labelOf o i; colorPart := colors o !! i |}.

Definition legendItems (o : Options) (m : gmap string LegendItem) (l : list nat)
  : gmap string LegendItem :=
  foldl (λ m i, match colors o !! i with
                | Some c => <[toLowerCase c := entryOf o i]> m
                | None => m
                end) m l.

(** The key of a pixel whose channels are in range. *)
Definition keyOf (r g b : Z) : string :=
  String "#" (sliceLast 6
    ("000000" +:+ toString16 (or32 (or32 (shl32 r 16) (shl32 g 8)) b))).

(** [k] hexadecimal digits of [n], leading zeros included. *)
Fixpoint fixedHex (k : nat) (n : Z) : string :=
  match k with
  | O => EmptyString
  | S k' => fixedHex k' (n / 16) +:+ String (hexDigit (n mod 16)) EmptyString
  end.

Fixpoint zeros (k : nat) : string :=
  match k with
  | O => EmptyString
  | S k' => String "0" (zeros k')
  end.


(** The chart when [initPieces] starts, provided [Legend] did not throw:
    canvas, legend (when shown) and header are in the container. *)
Definition beforePieces (el : list Node) (o : Options) : PieChart :=
  {| pieces := [];
     element := headerNode o ::
       (if showLegend o then placeLegend o (el ++ [CanvasNode (chartClass o)])
        else el ++ [CanvasNode (chartClass o)]);
     options := o; canvas := []; canvasWidth := widthAttribute (height o);
     legendDiv := if showLegend o
                  then map (labelOf o) (seq 0 (length (labels o))) else [];
     legend := if showLegend o
               then Some {| item := legendItems o ∅ (seq 0 (length (labels o))) |}
               else None;
     header := true; mousemove := false; mouseleave := false;
     prevPiece := Undefined; currPiece := Undefined; effects := [] |}.

(** The chart a successful construction leaves. *)
Definition built (el : list Node) (o : Options) : PieChart :=
  let o' := setPercentages (shares (percentages o)) o in
  let ps := piecesFrom o' 0 0%float (shares (percentages o)) in
  setCanvas (map (wedgeOf o') ps)
    (setPrevPiece EmptyStr (setMouseleave true (setMousemove true
      (setPieces ps (setOptions o' (beforePieces el o)))))).

(** The wedges [display] is to paint for the options [o], and the chart
    it leaves when [arc] throws for one of them: the pieces are made and
    the handlers bound, the wedges before that one are painted. *)
Definition wedges (o : Options) : list Wedge :=
  let o' := setPercentages (shares (percentages o)) o in
  map (wedgeOf o') (piecesFrom o' 0 0%float (shares (percentages o))).

Definition undrawn (el : list Node) (o : Options) : PieChart :=
  let o' := setPercentages (shares (percentages o)) o in
  let ps := piecesFrom o' 0 0%float (shares (percentages o)) in
  setCanvas (painted (wedges o))
    (setPrevPiece EmptyStr (setMouseleave true (setMousemove true
      (setPieces ps (setOptions o' (beforePieces el o)))))).

(** The chart when [Legend] starts: the canvas is in the container and
    has its width. *)
Definition withCanvas (el : list Node) (o : Options) : PieChart :=
  setCanvasWidth (widthAttribute (height o))
    (setElement (el ++ [CanvasNode (chartClass o)]) (newChart el o)).

(** Options used as concrete inputs below: the defaults with the legend
    shown and three shares, the last of them zero (the default [labels]
    has two elements); and three labelled slices in the CAKE colours. *)
Definition zeroThird : Options :=
  {| borderColor := "#fff"; borderWidth := 0%float; chartClass := "";
     chartSide := "left"; colors := colorSchemes.EASTER; height := 300%float;
     labels := [ ""; "" ]; legendClass := "";
     percentages := [ 50%float; 50%float; 0%float ]; showLegend := true;
     title := ""; titleClass := ""; titleJustify := "left" |}.

Definition cake : Options :=
  {| borderColor := "#fff"; borderWidth := 0%float; chartClass := "";
     chartSide := "left"; colors := colorSchemes.CAKE; height := 300%float;
     labels := [ "flour"; "sugar"; "eggs" ]; legendClass := "";
     percentages := [ 50%float; 0%float; 50%float ]; showLegend := true;
     title := "Cake"; titleClass := ""; titleJustify := "center" |}.

(** Three shares for two colours, the legend shown. *)
Definition twoColors : Options :=
  {| borderColor := "#fff"; borderWidth := 0%float; chartClass := "";
     chartSide := "left"; colors := [ "#774F38"; "#E08E79" ]; height := 300%float;
     labels := [ "flour"; "sugar" ]; legendClass := "";
     percentages := [ 50%float; 25%float; 25%float ]; showLegend := true;
     title := "Cake"; titleClass := ""; titleJustify := "left" |}.

(** The RAINBOW scheme, which names its colours, and a chart whose two
    colours are written with three digits. *)
Definition rainbow : Options :=
  {| borderColor := "#fff"; borderWidth := 0%float; chartClass := "";
     chartSide := "left"; colors := colorSchemes.RAINBOW; height := 300%float;
     labels := [ "r"; "o"; "y"; "g"; "b"; "v" ]; legendClass := "";
     percentages := [ 25%float; 25%float; 25%float; 25%float; 0%float; 0%float ];
     showLegend := true; title := ""; titleClass := ""; titleJustify := "left" |}.

Definition shortHex : Options :=
  {| borderColor := "#fff"; borderWidth := 0%float; chartClass := "";
     chartSide := "left"; colors := [ "#F00"; "#00F" ]; height := 300%float;
     labels := [ "hot"; "cold" ]; legendClass := "";
     percentages := [ 50%float; 50%float ];
     showLegend := true; title := ""; titleClass := ""; titleJustify := "left" |}.

(** A number that is neither NaN nor negative, on the IEEE-754 reading of
    the float. *)
Definition nonNegSF (x : spec_float) : Prop :=
  match x with
  | S754_zero _ => True
  | S754_infinity s => s = false
  | S754_finite s _ _ => s = false
  | S754_nan => False
  end.

Definition notNaN (x : number) : Prop := Prim2SF x ≠ S754_nan.

(** A rounded value that is not NaN and has the sign [sx]. *)
Definition signed (sx : bool) (r : spec_float) : Prop :=
  match r with
  | S754_zero s | S754_infinity s | S754_finite s _ _ => s = sx
  | S754_nan => False
  end.

(** [0 <= x], as the comparison of JavaScript. *)
Definition nonNegative (x : number) : Prop := (0 <=? x)%float = true.

(** The states a chart goes through: the one a successful construction
    leaves, and those that follow it event by event (a handler that throws
    keeps what it changed before). *)
Inductive reachable : PieChart → Prop :=
  | reachable_new (el : list Node) (o : Options) (s : PieChart) :
      PieChart_new el o = (Normal tt, s) → reachable s
  | reachable_event (e : Event) (s : PieChart) :
      reachable s → reachable (dispatch e s).2.

(** ** [$.fn.piechart]

    The options a caller passes: every key is optional ([None]: the key is
    absent or [undefined]). *)
Record UserOptions : Type := {
  u_borderColor : option string;
  u_borderWidth : option number;
  u_chartClass : option string;
  u_chartSide : option string;
  u_colors : option (list string);
  u_height : option number;
  u_labels : option (list string);
  u_legendClass : option string;
  u_percentages : option (list number);
  u_showLegend : option bool;
  u_title : option string;
  u_titleClass : option string;
  u_titleJustify : option string
}.

(** [$.extend({}, d, u)]: a new object with the keys of [d], overwritten
    by those [u] has.  The copy is shallow: an array of [u] is not copied
    but shared with the caller. *)
Definition extend (d : Options) (u : UserOptions) : Options :=
  {| borderColor := default (borderColor d) (u_borderColor u);
     borderWidth := default (borderWidth d) (u_borderWidth u);
     chartClass := default (chartClass d) (u_chartClass u);
     chartSide := default (chartSide d) (u_chartSide u);
     colors := default (colors d) (u_colors u);
     height := default (height d) (u_height u);
     labels := default (labels d) (u_labels u);
     legendClass := default (legendClass d) (u_legendClass u);
     percentages := default (percentages d) (u_percentages u);
     showLegend := default (showLegend d) (u_showLegend u);
     title := default (title d) (u_title u);
     titleClass := default (titleClass d) (u_titleClass u);
     titleJustify := default (titleJustify d) (u_titleJustify u) |}.

(** [this.each(function() { new PieChart(this, settings); })]: one chart
    per element, in order, all on the one [settings] object, so that each
    constructor finds the array of percentages as the one before left it;
    a constructor that throws ends the loop.  The result is the
    completion, the charts made (the one that threw included, as far as
    it got) and the settings at the end. *)
Fixpoint each (elements : list (list Node)) (settings : Options)
  : completion unit * (list PieChart * Options) :=
  match elements with
  | [] => (Normal tt, ([], settings))
  | el :: rest =>
      match PieChart_new el settings with
      | (Normal _, s) =>
          let '(c, (charts, settings')) := each rest (options s) in
          (c, (s :: charts, settings'))
      | (Throw e, s) => (Throw e, ([s], options s))
      end
  end.

(** [$(elements).piechart(options)] *)
Definition piechart (elements : list (list Node)) (u : UserOptions)
  : completion unit * (list PieChart * Options) :=
  each elements (extend defaults u).

(** No key given, and the running total [75, 100] as only key. *)
Definition noOptions : UserOptions :=
  {| u_borderColor := None; u_borderWidth := None; u_chartClass := None;
     u_chartSide := None; u_colors := None; u_height := None; u_labels := None;
     u_legendClass := None; u_percentages := None; u_showLegend := None;
     u_title := None; u_titleClass := None; u_titleJustify := None |}.

Definition runningTotal : UserOptions :=
  {| u_borderColor := None; u_borderWidth := None; u_chartClass := None;
     u_chartSide := None; u_colors := None; u_height := None; u_labels := None;
     u_legendClass := None; u_percentages := Some [ 75%float; 100%float ];
     u_showLegend := None; u_title := None; u_titleClass := None;
     u_titleJustify := None |}.

(** A running total whose first two steps are too small to move 100. *)
Definition tinySteps : UserOptions :=
  {| u_borderColor := None; u_borderWidth := None; u_chartClass := None;
     u_chartSide := None; u_colors := None; u_height := None; u_labels := None;
     u_legendClass := None;
     u_percentages := Some [ 0x1p-50%float; 0x1p-50%float; 100%float ];
     u_showLegend := None; u_title := None; u_titleClass := None;
     u_titleJustify := None |}.

(** The defaults on a canvas of height 30, less than twice the margin
    of 20, and on one whose height is not a whole number. *)
Definition small : Options :=
  {| borderColor := "#fff"; borderWidth := 0%float; chartClass := "";
     chartSide := "left"; colors := colorSchemes.EASTER; height := 30%float;
     labels := [ ""; "" ]; legendClass := "";
     percentages := [ 75%float; 25%float ]; showLegend := false;
     title := ""; titleClass := ""; titleJustify := "left" |}.

Definition halfPixel : Options :=
  {| borderColor := "#fff"; borderWidth := 0%float; chartClass := "";
     chartSide := "left"; colors := colorSchemes.EASTER; height := 300.5%float;
     labels := [ ""; "" ]; legendClass := "";
     percentages := [ 75%float; 25%float ]; showLegend := false;
     title := ""; titleClass := ""; titleJustify := "left" |}.

(** One colour for the two default labels, the legend shown. *)
Definition oneColor : Options :=
  {| borderColor := "#fff"; borderWidth := 0%float; chartClass := "";
     chartSide := "left"; colors := [ "#774F38" ]; height := 300%float;
     labels := [ ""; "" ]; legendClass := "";
     percentages := [ 100%float ]; showLegend := true;
     title := ""; titleClass := ""; titleJustify := "left" |}.


(** ** Notions used to state further properties *)

(** The labels whose effects are on after a log of effect calls: a call
    of [addEffects] turns a label on, a call of [clearEffects] turns it
    off (labels are told apart by their identity). *)
Definition highlighted (log : list Effect) : gset nat :=
  foldl (λ on e, match e with
                 | AddEffects l _ => {[ node l ]} ∪ on
                 | ClearEffects l => on ∖ {[ node l ]}
                 end) ∅ log.

(** The label [prevPiece] holds, if any. *)
Definition heldLabel (x : PieceRef) : gset nat :=
  match x with
  | LabelRef l => {[ node l ]}
  | _ => ∅
  end.

(** A number that is neither NaN nor an infinity ([isFinite]). *)
Definition finiteSF (x : spec_float) : Prop :=
  match x with
  | S754_zero _ | S754_finite _ _ _ => True
  | S754_infinity _ | S754_nan => False
  end.

Definition finiteNumber (x : number) : Prop := finiteSF (Prim2SF x).

(** What the handlers leave alone: everything but [prevPiece],
    [currPiece] and the effects on the labels. *)
Definition sameChart (s s' : PieChart) : Prop :=
  pieces s' = pieces s ∧ element s' = element s ∧ options s' = options s
  ∧ canvas s' = canvas s ∧ legendDiv s' = legendDiv s ∧ legend s' = legend s
  ∧ header s' = header s ∧ mousemove s' = mousemove s
  ∧ mouseleave s' = mouseleave s ∧ canvasWidth s' = canvasWidth s.

(** A computation that leaves all of that alone, however it completes. *)
Definition keepsChart {A} (m : js PieChart A) : Prop :=
  ∀ s, sameChart s (m s).2.

(** The state after a sequence of events, each handled to its end or to
    its throw. *)
Definition after (events : list Event) (s : PieChart) : PieChart :=
  foldl (λ s e, (dispatch e s).2) s events.

(** An event whose pixel, if it has one, is a pixel of a canvas. *)
Definition validEvent (e : Event) : Prop :=
  match e with
  | MouseMove p => validPixel p
  | MouseLeave => True
  end.

(** * Properties *)

(** ** The monad *)

Lemma bind_run {S A B} (m : js S A) (f : A → js S B) (s : S) :
  (m ≫= f) s = match m s with
               | (Normal a, s') => f a s'
               | (Throw e, s') => (Throw e, s')
               end.
Proof. reflexivity. Qed.

(** Run the straight-line part of a computation. *)
Ltac js_run :=
  repeat first
    [ rewrite bind_run
    | progress cbn [get put modify mret js_ret mthrow js_throw] ].

(** ** The rewriting loop and the sum ([initPieces], lines 141-161) *)

Lemma readNumber_middle (done : list number) (t : number) (r : list number) :
  readNumber (done ++ t :: r) (length done) = t.
Proof. unfold readNumber. by rewrite list_lookup_middle. Qed.

Lemma changeFormat_loop (todo done : list number) (prev : number) :
  ∃ last : number,
    foldM changeFormatStep (seq (length done) (length todo)) prev (done ++ todo) =
    (if decreasing prev todo then Throw invalidPercentages else Normal last,
     done ++ rewritten prev todo).
Proof.
  revert done prev. induction todo as [|t r IH]; intros done prev.
  - by exists prev.
  - cbn [length seq foldM decreasing rewritten].
    rewrite bind_run. unfold changeFormatStep at 1.
    rewrite bind_run. cbn [get]. rewrite readNumber_middle.
    destruct (t <? prev)%float eqn:Hlt; cbn [orb].
    + by exists prev.
    + rewrite bind_run. cbn [put mret js_ret].
      rewrite insert_app_r_alt by lia. rewrite Nat.sub_diag. cbn [insert list_insert].
      destruct (IH (done ++ [(t - prev)%float]) t) as [v Hv].
      rewrite length_app in Hv. cbn [length] in Hv.
      replace (length done + 1)%nat with (S (length done)) in Hv by lia.
      rewrite <- !app_assoc in Hv. cbn [app] in Hv. rewrite Hv. by exists v.
Qed.

Lemma rewritten_differences (prev : number) (a : list number) :
  decreasing prev a = false → rewritten prev a = differences prev a.
Proof.
  revert prev. induction a as [|t r IH]; intros prev H; cbn in *; [done|].
  apply orb_false_iff in H as [Ht Hr]. rewrite Ht. f_equal. by apply IH.
Qed.

Lemma length_rewritten (prev : number) (a : list number) :
  length (rewritten prev a) = length a.
Proof.
  revert prev. induction a as [|t r IH]; intros prev; cbn; [done|].
  destruct (t <? prev)%float; cbn; [done|]. by rewrite IH.
Qed.

Lemma length_differences (prev : number) (a : list number) :
  length (differences prev a) = length a.
Proof. revert prev. induction a as [|t r IH]; intros prev; cbn; [done|]. by rewrite IH. Qed.

Lemma changeFormat_run (a : list number) :
  changeFormat (length a) a =
  if lastIs100 a
  then (if decreasing 0%float a then Throw invalidPercentages else Normal tt,
        rewritten 0%float a)
  else (Normal tt, a).
Proof.
  unfold changeFormat. rewrite bind_run. cbn [get].
  destruct (lastIs100 a); [|done].
  rewrite bind_run.
  destruct (changeFormat_loop a [] 0%float) as [v Hv]. cbn [length app] in Hv.
  rewrite Hv. by destruct (decreasing 0%float a).
Qed.

Lemma read_all (a : list number) :
  map (readNumber a) (seq 0 (length a)) = a.
Proof.
  apply list_eq. intros i. rewrite list_lookup_fmap.
  destruct (a !! i) as [x|] eqn:Hx.
  - rewrite lookup_seq_lt by (by eapply lookup_lt_Some). cbn.
    unfold readNumber. by rewrite Hx.
  - rewrite lookup_seq_ge by (by apply lookup_ge_None). done.
Qed.

Lemma totalPerc_fold (a : list number) (l : list nat) :
  foldl (λ t i, (t + readNumber a i)%float) 0%float (rev l) =
  sumFromLast (map (readNumber a) l).
Proof.
  induction l as [|x l IH]; [done|].
  cbn [rev map]. rewrite foldl_app. cbn [foldl]. by rewrite IH.
Qed.

Lemma totalPerc_sum (a : list number) : totalPerc (length a) a = sumFromLast a.
Proof. unfold totalPerc. by rewrite totalPerc_fold, read_all. Qed.

Lemma checkTotal_run (n : nat) (a : list number) :
  length a = n →
  checkTotal n a =
  (if (sumFromLast a =? 100)%float then Normal tt else Throw invalidPercentages, a).
Proof.
  intros <-. unfold checkTotal. rewrite bind_run. cbn [get].
  rewrite totalPerc_sum. by destruct (sumFromLast a =? 100)%float.
Qed.

(** What [normalize] returns and what it leaves in the array. *)
Lemma normalize_run (a : list number) :
  normalize (length a) a =
  if lastIs100 a && decreasing 0%float a
  then (Throw invalidPercentages, rewritten 0%float a)
  else (if (sumFromLast (shares a) =? 100)%float
        then Normal tt else Throw invalidPercentages,
        shares a).
Proof.
  unfold normalize, shares. rewrite bind_run, changeFormat_run.
  destruct (lastIs100 a); cbn [andb].
  - destruct (decreasing 0%float a) eqn:Hd; [done|].
    rewrite rewritten_differences by done.
    apply checkTotal_run, length_differences.
  - by apply checkTotal_run.
Qed.

Lemma length_shares (a : list number) : length (shares a) = length a.
Proof. unfold shares. destruct (lastIs100 a); [apply length_differences|done]. Qed.

(** ** The loops that make and draw the pieces *)

Lemma createPieces_loop (todo done : list number) (pos : number) (s : PieChart) :
  percentages (options s) = done ++ todo →
  ∃ last : number,
    foldM createPiece (seq (length done) (length todo)) pos s =
    (Normal last,
     setPieces (pieces s ++ piecesFrom (options s) (length done) pos todo) s).
Proof.
  revert done pos s. induction todo as [|p r IH]; intros done pos s Ha.
  - exists pos. cbn. rewrite app_nil_r. by destruct s.
  - cbn [length seq foldM piecesFrom]. rewrite bind_run.
    unfold createPiece at 1. js_run. rewrite Ha, readNumber_middle. cbn [end_].
    match goal with |- context [foldM _ _ _ ?s'] => set (s1 := s') end.
    destruct (IH (done ++ [p]) (pos + p / 100)%float s1) as [v Hv].
    { subst s1. cbn. by rewrite Ha, <- app_assoc. }
    rewrite length_app in Hv. cbn [length] in Hv.
    replace (length done + 1)%nat with (S (length done)) in Hv by lia.
    rewrite Hv. exists v. subst s1. cbn. by rewrite <- app_assoc.
Qed.

Lemma createPieces_run (s : PieChart) :
  createPieces (length (percentages (options s))) s =
  (Normal tt,
   setPieces (pieces s ++
              piecesFrom (options s) 0 0%float (percentages (options s))) s).
Proof.
  unfold createPieces. rewrite bind_run.
  destruct (createPieces_loop (percentages (options s)) [] 0%float s eq_refl)
    as [v Hv].
  cbn [length] in Hv. by rewrite Hv.
Qed.

Lemma length_piecesFrom (o : Options) (i : nat) (pos : number) (a : list number) :
  length (piecesFrom o i pos a) = length a.
Proof.
  revert i pos. induction a as [|p r IH]; intros i pos; cbn; [done|]. by rewrite IH.
Qed.

Lemma draw_run (p : Piece.t) (s : PieChart) :
  canvasWidth s = widthAttribute (height (options s)) →
  draw p s =
  if arcThrows (wedgeOf (options s) p) then (Throw IndexSizeError, s)
  else (Normal tt, setCanvas (canvas s ++ [wedgeOf (options s) p]) s).
Proof.
  intros Hw. unfold draw. rewrite bind_run. cbn [get]. rewrite bind_run, Hw.
  unfold arc, arcThrows, wedgeOf.
  cbn [center radius startAngle endAngle].
  destruct (is_finite (_ / 2)); cbn [andb negb]; [|done].
  destruct (is_finite (_ - 20)); cbn [andb negb]; [|done].
  destruct (is_finite (2 * Math_PI * start _)); cbn [andb negb]; [|done].
  destruct (is_finite (2 * Math_PI * end_ _)); cbn [andb negb]; [|done].
  by destruct (_ <? 0)%float.
Qed.

Lemma painted_all (ws : list Wedge) :
  existsb arcThrows ws = false → painted ws = ws.
Proof.
  induction ws as [|w r IH]; [done|]. cbn [existsb painted].
  destruct (arcThrows w); [done|]. cbn [orb]. intros H. by rewrite IH.
Qed.

Lemma display_loop (todo done : list Piece.t) (s : PieChart) :
  canvasWidth s = widthAttribute (height (options s)) →
  pieces s = done ++ todo →
  foldM displayStep (seq (length done) (length todo)) tt s =
  (if existsb arcThrows (map (wedgeOf (options s)) todo)
   then Throw IndexSizeError else Normal tt,
   setCanvas (canvas s ++ painted (map (wedgeOf (options s)) todo)) s).
Proof.
  revert done s. induction todo as [|p r IH]; intros done s Hw Hp.
  - cbn. rewrite app_nil_r. by destruct s.
  - cbn [length seq foldM map existsb painted]. rewrite bind_run.
    unfold displayStep at 1. rewrite bind_run. cbn [get].
    rewrite Hp, list_lookup_middle by done.
    rewrite draw_run by done.
    destruct (arcThrows (wedgeOf (options s) p)); cbn [orb].
    { rewrite app_nil_r. by destruct s. }
    match goal with |- context [foldM _ _ _ ?s'] => set (s1 := s') end.
    specialize (IH (done ++ [p]) s1).
    rewrite length_app in IH. cbn [length] in IH.
    replace (length done + 1)%nat with (S (length done)) in IH by lia.
    rewrite IH.
    + subst s1. cbn. by rewrite <- app_assoc.
    + by subst s1.
    + subst s1. cbn. by rewrite Hp, <- app_assoc.
Qed.

Lemma display_run (s : PieChart) :
  canvasWidth s = widthAttribute (height (options s)) →
  length (pieces s) = length (percentages (options s)) →
  display s =
  (if existsb arcThrows (map (wedgeOf (options s)) (pieces s))
   then Throw IndexSizeError else Normal tt,
   setCanvas (canvas s ++ painted (map (wedgeOf (options s)) (pieces s))) s).
Proof.
  intros Hw Hl. unfold display. rewrite bind_run. cbn [get]. rewrite <- Hl.
  by apply (display_loop (pieces s) []).
Qed.

(** ** The loop of [Legend] *)

Lemma legend_loop (o : Options) (n i : nat) (m : gmap string LegendItem)
    (s : PieChart) :
  i + n ≤ length (colors o) →
  foldM (addLabel o) (seq i n) m s =
  (Normal (legendItems o m (seq i n)),
   setLegendDiv (legendDiv s ++ map (labelOf o) (seq i n)) s).
Proof.
  revert i m s. induction n as [|n IH]; intros i m s Hn.
  - cbn. rewrite app_nil_r. by destruct s.
  - cbn [seq foldM map]. rewrite bind_run. unfold addLabel at 1.
    rewrite bind_run. cbn [modify].
    destruct (colors o !! i) as [c|] eqn:Hc.
    2:{ apply lookup_ge_None in Hc. lia. }
    cbn [mret js_ret]. rewrite IH by lia.
    unfold legendItems, entryOf. cbn [foldl]. rewrite Hc. cbn.
    by rewrite <- app_assoc.
Qed.

Lemma legend_loop_throw (o : Options) (n i : nat) (m : gmap string LegendItem)
    (s : PieChart) :
  i ≤ length (colors o) < i + n →
  foldM (addLabel o) (seq i n) m s =
  (Throw TypeError,
   setLegendDiv
     (legendDiv s ++ map (labelOf o) (seq i (S (length (colors o) - i)))) s).
Proof.
  revert i m s. induction n as [|n IH]; intros i m s Hn; [lia|].
  cbn [seq foldM]. rewrite bind_run. unfold addLabel at 1.
  rewrite bind_run. cbn [modify].
  destruct (colors o !! i) as [c|] eqn:Hc.
  - apply lookup_lt_Some in Hc. cbn [mret js_ret]. rewrite IH by lia.
    replace (length (colors o) - i)%nat with (S (length (colors o) - S i)) by lia.
    cbn [seq map]. destruct s; cbn. by rewrite <- app_assoc.
  - apply lookup_ge_None in Hc.
    replace (length (colors o) - i)%nat with 0%nat by lia. done.
Qed.

(** ** [init] and the constructor, step by step *)

Lemma Legend_new_run (s : PieChart) :
  length (labels (options s)) ≤ length (colors (options s)) →
  Legend_new s =
  (Normal {| item := legendItems (options s) ∅ (seq 0 (length (labels (options s)))) |},
   setLegendDiv
     (legendDiv s ++ map (labelOf (options s)) (seq 0 (length (labels (options s)))))
     (setElement (placeLegend (options s) (element s)) s)).
Proof.
  intros Hl. unfold Legend_new. js_run.
  rewrite legend_loop by (cbn; lia). done.
Qed.

Lemma Legend_new_throw (s : PieChart) :
  length (colors (options s)) < length (labels (options s)) →
  (Legend_new s).1 = Throw TypeError.
Proof.
  intros Hl. unfold Legend_new. js_run.
  rewrite legend_loop_throw by (cbn; lia). done.
Qed.

Lemma initPieces_run (s : PieChart) :
  pieces s = [] →
  initPieces s =
  let a := percentages (options s) in
  if (length (colors (options s)) <? length a)%nat then (Throw notEnoughColors, s)
  else if lastIs100 a && decreasing 0%float a
  then (Throw invalidPercentages,
        setOptions (setPercentages (rewritten 0%float a) (options s)) s)
  else
    let s' := setOptions (setPercentages (shares a) (options s)) s in
    if (sumFromLast (shares a) =? 100)%float
    then (Normal tt,
          setPieces (piecesFrom (options s') 0 0%float (shares a)) s')
    else (Throw invalidPercentages, s').
Proof.
  intros Hp. unfold initPieces. js_run. unfold checkColors. js_run.
  cbv zeta.
  destruct (length (colors (options s)) <? length (percentages (options s)))%nat;
    [done|].
  js_run. unfold onPercentages. rewrite normalize_run.
  destruct (lastIs100 _ && decreasing _ _); [done|].
  destruct (sumFromLast _ =? 100)%float; [|done].
  match goal with |- createPieces _ ?s' = _ => set (s1 := s') end.
  assert (Hl : length (percentages (options s)) = length (percentages (options s1)))
    by (subst s1; cbn; by rewrite length_shares).
  rewrite Hl, createPieces_run. subst s1. cbn. by rewrite Hp.
Qed.

(** The constructor up to the legend: the canvas is in the container and
    has its width. *)
Lemma PieChart_new_start (el : list Node) (o : Options) :
  PieChart_new el o =
  (((if showLegend o then initLegend else mret tt);;
    initHeader;; initPieces;; modify (setMousemove true);;
    modify (setMouseleave true);; modify (setPrevPiece EmptyStr));;
   display) (withCanvas el o).
Proof.
  unfold PieChart_new, init.
  rewrite bind_run. cbn [get]. rewrite (bind_run get). cbn [get].
  rewrite (bind_run (modify _)). cbn [modify].
  rewrite (bind_run (modify _)). cbn [modify]. rewrite bind_run. done.
Qed.

(** The constructor, when [Legend] does not throw. *)
Lemma PieChart_new_run (el : list Node) (o : Options) :
  showLegend o = false ∨ length (labels o) ≤ length (colors o) →
  PieChart_new el o =
  let a := percentages o in
  if (length (colors o) <? length a)%nat
  then (Throw notEnoughColors, beforePieces el o)
  else if lastIs100 a && decreasing 0%float a
  then (Throw invalidPercentages,
        setOptions (setPercentages (rewritten 0%float a) o) (beforePieces el o))
  else if (sumFromLast (shares a) =? 100)%float
  then if existsb arcThrows (wedges o)
       then (Throw IndexSizeError, undrawn el o)
       else (Normal tt, built el o)
  else (Throw invalidPercentages,
        setOptions (setPercentages (shares a) o) (beforePieces el o)).
Proof.
  intros H. rewrite PieChart_new_start.
  assert (Hpre :
    (if showLegend o then initLegend else mret tt) (withCanvas el o) =
    (Normal tt,
     (if showLegend o
      then setLegend
             (Some {| item := legendItems o ∅ (seq 0 (length (labels o))) |})
             (setLegendDiv (map (labelOf o) (seq 0 (length (labels o))))
                (setElement (placeLegend o (el ++ [CanvasNode (chartClass o)]))
                   (withCanvas el o)))
      else withCanvas el o))).
  { destruct (showLegend o) eqn:Hs; [|done].
    destruct H as [H|H]; [done|].
    unfold initLegend. rewrite (bind_run Legend_new).
    rewrite Legend_new_run by done. done. }
  rewrite bind_run, (bind_run (if showLegend o then _ else _)), Hpre. clear Hpre.
  rewrite (bind_run initHeader). unfold initHeader at 1. cbn [modify].
  match goal with |- context [(initPieces ≫= _) ?s] =>
    replace s with (beforePieces el o)
      by (unfold beforePieces; by destruct (showLegend o))
  end.
  rewrite (bind_run initPieces), initPieces_run by done.
  cbv zeta. change (options (beforePieces el o)) with o.
  destruct (length (colors o) <? length (percentages o))%nat; [done|].
  destruct (lastIs100 _ && decreasing _ _); [done|].
  destruct (sumFromLast _ =? 100)%float; [|done].
  js_run. rewrite display_run.
  - change (map _ (pieces _)) with (wedges o).
    destruct (existsb arcThrows (wedges o)) eqn:Ht; [done|].
    by rewrite (painted_all _ Ht).
  - done.
  - cbn. by rewrite length_piecesFrom.
Qed.

Lemma PieChart_new_legend_throw (el : list Node) (o : Options) :
  showLegend o = true → length (colors o) < length (labels o) →
  (PieChart_new el o).1 = Throw TypeError.
Proof.
  intros Hs Hl. rewrite PieChart_new_start, Hs.
  rewrite bind_run, (bind_run initLegend). unfold initLegend.
  rewrite (bind_run Legend_new).
  pose proof (Legend_new_throw (withCanvas el o) Hl) as Ht.
  destruct (Legend_new _) as [c s']. cbn in Ht. by subst c.
Qed.

(** A successful construction: the conditions it needed and the chart it
    leaves. *)
Lemma PieChart_new_Normal (el : list Node) (o : Options) (s : PieChart) :
  PieChart_new el o = (Normal tt, s) →
  s = built el o
  ∧ (showLegend o = true → length (labels o) ≤ length (colors o))
  ∧ length (percentages o) ≤ length (colors o)
  ∧ lastIs100 (percentages o) && decreasing 0%float (percentages o) = false
  ∧ (sumFromLast (shares (percentages o)) =? 100)%float = true.
Proof.
  intros Hnew.
  assert (Hleg : showLegend o = false ∨ length (labels o) ≤ length (colors o)).
  { destruct (showLegend o) eqn:Hs; [|by left]. right.
    destruct (decide (length (labels o) ≤ length (colors o))) as [|Hn]; [done|].
    pose proof (PieChart_new_legend_throw el o Hs ltac:(lia)) as Ht.
    rewrite Hnew in Ht. done. }
  rewrite (PieChart_new_run el o Hleg) in Hnew. cbv zeta in Hnew.
  destruct (length (colors o) <? length (percentages o))%nat eqn:Hc; [done|].
  destruct (lastIs100 _ && decreasing _ _) eqn:Hd; [done|].
  destruct (sumFromLast _ =? 100)%float eqn:Hsum; [|done].
  destruct (existsb arcThrows (wedges o)); [done|].
  apply Nat.ltb_ge in Hc. inversion Hnew. split_and!; try done.
  intros Hs. destruct Hleg; [congruence|done].
Qed.

(** A construction returns only if [arc] has thrown for no wedge. *)
Lemma PieChart_new_painted (el : list Node) (o : Options) (s : PieChart) :
  PieChart_new el o = (Normal tt, s) → existsb arcThrows (wedges o) = false.
Proof.
  intros Hnew.
  destruct (PieChart_new_Normal el o s Hnew) as (_ & Hleg & _).
  rewrite PieChart_new_run in Hnew
    by (destruct (showLegend o); [right; by apply Hleg|by left]).
  cbv zeta in Hnew. repeat case_match; by simplify_eq.
Qed.

(** ** The closed forms, index by index *)

Lemma beforeFrom_cons (prev t : number) (r : list number) (i : nat) :
  beforeFrom prev (t :: r) (S i) = beforeFrom t r i.
Proof. by destruct i. Qed.

Lemma differences_lookup (prev : number) (a : list number) (i : nat) :
  differences prev a !! i = (λ t, (t - beforeFrom prev a i)%float) <$> a !! i.
Proof.
  revert prev i. induction a as [|t r IH]; intros prev i; [done|].
  destruct i as [|i]; [done|].
  rewrite beforeFrom_cons. apply IH.
Qed.

Lemma decreasing_spec (prev : number) (a : list number) :
  decreasing prev a = true ↔
  ∃ i t, a !! i = Some t ∧ (t <? beforeFrom prev a i)%float = true.
Proof.
  revert prev. induction a as [|t r IH]; intros prev; cbn [decreasing].
  - split; [done|]. by intros (i & t & H & _).
  - rewrite orb_true_iff, IH. split.
    + intros [H|(i & x & Hx & Hlt)].
      * by exists 0, t.
      * exists (S i), x. by rewrite beforeFrom_cons.
    + intros (i & x & Hx & Hlt). destruct i as [|i].
      * left. cbn in Hx. by simplify_eq.
      * right. exists i, x. by rewrite <- (beforeFrom_cons prev).
Qed.

Lemma decreasing_false (prev : number) (a : list number) :
  decreasing prev a = false ↔
  ∀ i t, a !! i = Some t → (t <? beforeFrom prev a i)%float = false.
Proof.
  split.
  - intros Hd i t Ht. destruct (t <? _)%float eqn:Hlt; [|done].
    assert (decreasing prev a = true) by (apply decreasing_spec; eauto).
    congruence.
  - intros H. destruct (decreasing prev a) eqn:Hd; [|done].
    apply decreasing_spec in Hd as (i & t & Ht & Hlt).
    rewrite (H i t Ht) in Hlt. done.
Qed.

(** ** Frame: what [normalize] does to the caller's array *)

(** C5, as amended: [normalize] works in place.  When the last element
    is 100 the caller's array is overwritten, each element by its
    difference to the one before, up to the first element that is smaller
    than the one before it; when the last element is not 100 the array is
    left as it was. *)
Theorem normalize_in_place (a : list number) :
  (normalize (length a) a).2 =
  if lastIs100 a then rewritten 0%float a else a.
Proof.
  rewrite normalize_run. unfold shares.
  destruct (lastIs100 a); cbn [andb]; [|done].
  destruct (decreasing 0%float a) eqn:Hd; [done|].
  cbn. by rewrite rewritten_differences.
Qed.

(** C5, as stated, fails: on the running total [75, 100] the array the
    caller passed no longer holds [75, 100] after [normalize]; it holds
    [75, 25]. *)
Lemma normalize_changes_input :
  (normalize 2 [75%float; 100%float]).2 = [75%float; 25%float]
  ∧ (normalize 2 [75%float; 100%float]).2 ≠ [75%float; 100%float].
Proof.
  split; [reflexivity|].
  intros H.
  apply (f_equal (λ l, match l with
                       | [_; x] => (x =? 100)%float
                       | _ => true
                       end)) in H.
  vm_compute in H. discriminate.
Qed.

(** ** Running totals *)

(** C6: an input whose last element is 100 is read as a running total.
    If some total is smaller than the one before it ([total[-1] = 0]),
    [normalize] throws "Invalid percentage values"; otherwise the array
    becomes the successive differences [total[i] - total[i-1]], and these
    go through the check of the sum.  [75, 100] gives [75, 25],
    [25, 75, 100] gives [25, 50, 25], and [75, 50, 100] is refused. *)
Theorem normalize_running_total (a : list number) (Hlast : lastIs100 a = true) :
  ((∃ i t, a !! i = Some t ∧ (t <? before a i)%float = true) →
   (normalize (length a) a).1 = Throw invalidPercentages)
  ∧ ((∀ i t, a !! i = Some t → (t <? before a i)%float = false) →
     let a' := (normalize (length a) a).2 in
     length a' = length a
     ∧ (∀ i t, a !! i = Some t → a' !! i = Some (t - before a i)%float)
     ∧ (normalize (length a) a).1 =
       if (sumFromLast a' =? 100)%float then Normal tt
       else Throw invalidPercentages)
  ∧ normalize 2 [75%float; 100%float] = (Normal tt, [75%float; 25%float])
  ∧ normalize 3 [25%float; 75%float; 100%float] =
    (Normal tt, [25%float; 50%float; 25%float])
  ∧ (normalize 3 [75%float; 50%float; 100%float]).1 = Throw invalidPercentages.
Proof.
  rewrite normalize_run, Hlast. cbn [andb]. unfold shares. rewrite Hlast.
  split_and!; try reflexivity.
  - intros Hd. apply (decreasing_spec 0%float) in Hd. by rewrite Hd.
  - intros Hd. apply (decreasing_false 0%float) in Hd. rewrite Hd. cbn.
    split_and!; [apply length_differences| |done].
    intros i t Ht. by rewrite differences_lookup, Ht.
Qed.

Lemma normalize_running_total_witness :
  lastIs100 [75%float; 100%float] = true
  ∧ (normalize 2 [75%float; 100%float]).2 !! 1 = Some 25%float.
Proof.
  split; [reflexivity|].
  destruct (normalize_running_total [75%float; 100%float] eq_refl)
    as (_ & H & _).
  destruct H as (_ & H & _).
  - intros [|[|[|i]]] t Ht; cbn in Ht; simplify_eq; reflexivity.
  - exact (H 1 100%float eq_refl).
Defined.

(** ** When [normalize] refuses its input *)

(** C7, as stated, fails: [75, 50, 100] is refused with "Invalid
    percentage values" although its successive differences, 75, -25 and
    50, add up to exactly 100. *)
Lemma normalize_refuses_with_sum_100 :
  ¬ ((normalize 3 [75%float; 50%float; 100%float]).1 = Throw invalidPercentages
     ↔ (sumFromLast (shares [75%float; 50%float; 100%float]) =? 100)%float = false).
Proof.
  intros [H _]. specialize (H eq_refl). vm_compute in H. discriminate.
Qed.

(** C7, as amended: [normalize] throws "Invalid percentage values" exactly
    when the input is in running-total form with some total smaller than
    the one before it, or the shares (after the conversion, if any), added
    from the last to the first, do not give exactly 100; it throws nothing
    else.  An accepted input leaves its shares in the array: they add up
    to exactly 100, are as many as the input had elements and are in the
    order of the input. *)
Theorem normalize_refuses_exactly (a : list number) :
  ((normalize (length a) a).1 = Throw invalidPercentages ↔
   (lastIs100 a = true
    ∧ ∃ i t, a !! i = Some t ∧ (t <? before a i)%float = true)
   ∨ (sumFromLast (shares a) =? 100)%float = false)
  ∧ ((normalize (length a) a).1 = Normal tt ∨
     (normalize (length a) a).1 = Throw invalidPercentages)
  ∧ ((normalize (length a) a).1 = Normal tt →
     (normalize (length a) a).2 = shares a
     ∧ (sumFromLast (normalize (length a) a).2 =? 100)%float = true
     ∧ length (normalize (length a) a).2 = length a
     ∧ ∀ i, (normalize (length a) a).2 !! i =
            (λ t, if lastIs100 a then (t - before a i)%float else t) <$> a !! i).
Proof.
  rewrite normalize_run.
  destruct (lastIs100 a) eqn:Hlast; cbn [andb].
  - destruct (decreasing 0%float a) eqn:Hd; cbn [fst snd].
    + split_and!; [|by right|done].
      split; [|done]. intros _. left. split; [done|].
      by apply (decreasing_spec 0%float).
    + destruct (sumFromLast (shares a) =? 100)%float eqn:Hsum.
      * split_and!; [|by left|].
        -- split; [done|]. intros [[_ H]|H]; [|done].
           apply (decreasing_spec 0%float) in H. congruence.
        -- intros _. split_and!; [done|done|apply length_shares|].
           intros i. unfold shares. rewrite Hlast. apply differences_lookup.
      * split_and!; [|by right|done]. split; [|done]. by right.
  - destruct (sumFromLast (shares a) =? 100)%float eqn:Hsum; cbn [fst snd].
    + split_and!; [|by left|].
      * split; [done|]. by intros [[? _]|?].
      * intros _. split_and!; [done|done|apply length_shares|].
        intros i. unfold shares. rewrite Hlast. by destruct (a !! i).
    + split_and!; [|by right|done]. split; [|done]. by right.
Qed.

Lemma normalize_refuses_exactly_witness :
  (normalize 2 [75%float; 25%float]).1 = Normal tt
  ∧ (normalize 2 [75%float; 25%float]).2 = [75%float; 25%float].
Proof.
  split; [reflexivity|].
  destruct (normalize_refuses_exactly [75%float; 25%float]) as (_ & _ & H).
  destruct (H eq_refl) as (H1 & _). exact H1.
Defined.

(** ** IEEE-754 facts about [+], [/] and [===]

    The primitive operations are specified by the Standard Library on
    [spec_float]; what is needed here is that adding numbers that are
    neither negative nor NaN, or dividing one by 100, gives such a number
    again, and that adding a zero gives a number equal to the first. *)

Section RoundingSign.
Variables prec emax : Z.

Lemma shr_1_nonneg (mrs : shr_record) :
  (0 ≤ shr_m mrs → 0 ≤ shr_m (shr_1 mrs))%Z.
Proof.
  destruct mrs as [m r s]. cbn [shr_m]. intros Hm.
  destruct m as [|[p|p|]|p]; cbn; lia.
Qed.

Lemma iter_shr_1_nonneg (p : positive) (mrs : shr_record) :
  (0 ≤ shr_m mrs → 0 ≤ shr_m (SpecFloat.iter_pos shr_1 p mrs))%Z.
Proof.
  revert mrs. induction p as [p IH|p IH|]; intros mrs Hm; cbn.
  - apply IH, IH. by apply shr_1_nonneg.
  - by apply IH, IH.
  - by apply shr_1_nonneg.
Qed.

Lemma shr_nonneg (mrs : shr_record) (e n : Z) :
  (0 ≤ shr_m mrs → 0 ≤ shr_m (shr mrs e n).1)%Z.
Proof.
  intros Hm. unfold shr. destruct n; cbn [fst]; try done.
  by apply iter_shr_1_nonneg.
Qed.

Lemma shr_fexp_nonneg (m e : Z) (l : location) :
  (0 ≤ m → 0 ≤ shr_m (shr_fexp prec emax m e l).1)%Z.
Proof.
  intros Hm. unfold shr_fexp. apply shr_nonneg.
  by destruct l as [|[]].
Qed.

Lemma round_nearest_even_nonneg (m : Z) (l : location) :
  (0 ≤ m → 0 ≤ round_nearest_even m l)%Z.
Proof.
  intros Hm. unfold round_nearest_even.
  destruct l as [|[]]; try done; [destruct (IntDef.Z.even m)|]; lia.
Qed.

Lemma binary_round_aux_signed (sx : bool) (mx ex : Z) (lx : location) :
  (0 ≤ mx)%Z → signed sx (binary_round_aux prec emax sx mx ex lx).
Proof.
  intros Hm. unfold binary_round_aux.
  pose proof (shr_fexp_nonneg mx ex lx Hm) as H1.
  destruct (shr_fexp prec emax mx ex lx) as [mrs' e']. cbn [fst] in H1.
  pose proof (shr_fexp_nonneg
    (round_nearest_even (shr_m mrs') (loc_of_shr_record mrs')) e' loc_Exact
    (round_nearest_even_nonneg _ _ H1)) as H2.
  destruct (shr_fexp prec emax _ e' loc_Exact) as [mrs'' e'']. cbn [fst] in H2.
  destruct (shr_m mrs'') as [|m|m]; cbn; [done| |lia].
  by destruct (e'' <=? emax - prec)%Z.
Qed.

Lemma binary_round_signed (sx : bool) (mx : positive) (ex : Z) :
  signed sx (binary_round prec emax sx mx ex).
Proof.
  unfold binary_round. destruct (shl_align _ _ _) as [mz ez].
  by apply binary_round_aux_signed.
Qed.

Lemma signed_false_nonNeg (r : spec_float) : signed false r → nonNegSF r.
Proof. by destruct r. Qed.

Lemma SFadd_nonNeg (x y : spec_float) :
  nonNegSF x → nonNegSF y → nonNegSF (SFadd prec emax x y).
Proof.
  destruct x as [sx|sx| |sx mx ex], y as [sy|sy| |sy my ey];
    cbn [nonNegSF]; intros Hx Hy; try done; subst; cbn [SFadd nonNegSF];
    try done.
  - by destruct sx, sy.
  - cbn [cond_Zopp]. cbn [Z.add binary_normalize].
    apply signed_false_nonNeg, binary_round_signed.
Qed.

Lemma SFdiv_nonNeg (x : spec_float) (my : positive) (ey : Z) :
  nonNegSF x → nonNegSF (SFdiv prec emax x (S754_finite false my ey)).
Proof.
  destruct x as [sx|sx| |sx mx ex]; cbn [nonNegSF]; intros Hx; try done;
    subst; cbn [SFdiv xorb nonNegSF]; try done.
  unfold SFdiv_core_binary.
  set (s := (ex - ey - _)%Z).
  set (m' := match s with 0%Z => Z.pos mx | Z.pos _ => _ | Z.neg _ => 0%Z end).
  assert (Hm' : (0 ≤ m')%Z).
  { subst m'. destruct s; try done. apply Z.shiftl_nonneg. done. }
  pose proof (Z.div_pos m' (Z.pos my) Hm' ltac:(done)) as Hq.
  unfold Z.div in Hq.
  destruct (Z.div_eucl m' (Z.pos my)) as [q r] eqn:Hqr.
  apply signed_false_nonNeg. by apply binary_round_aux_signed.
Qed.
End RoundingSign.

Lemma nonNegative_SF (x : number) : nonNegative x → nonNegSF (Prim2SF x).
Proof.
  unfold nonNegative. rewrite leb_spec.
  change (Prim2SF 0) with (S754_zero false).
  by destruct (Prim2SF x) as [s|[]| |[] m e].
Qed.


Lemma nonNegSF_notNaN (x : number) : nonNegSF (Prim2SF x) → notNaN x.
Proof. unfold notNaN. by destruct (Prim2SF x). Qed.

Lemma add_nonNeg (x y : number) :
  nonNegSF (Prim2SF x) → nonNegSF (Prim2SF y) → nonNegSF (Prim2SF (x + y)).
Proof. rewrite add_spec. apply SFadd_nonNeg. Qed.

Lemma div100_nonNeg (x : number) :
  nonNegative x → nonNegSF (Prim2SF (x / 100)).
Proof.
  intros Hx. rewrite div_spec.
  change (Prim2SF 100) with (S754_finite false 7036874417766400 (-46)).
  by apply SFdiv_nonNeg, nonNegative_SF.
Qed.


(** A zero share, of either sign, moves the running fraction to a number
    equal to it. *)
Lemma add_zero_share (x z : number) :
  notNaN x → (z =? 0)%float = true → (x =? x + z / 100)%float = true.
Proof.
  unfold notNaN. intros Hx Hz.
  rewrite FloatAxioms.eqb_spec in Hz. rewrite FloatAxioms.eqb_spec, add_spec, div_spec.
  change (Prim2SF 0) with (S754_zero false) in Hz.
  change (Prim2SF 100) with (S754_finite false 7036874417766400 (-46)).
  destruct (Prim2SF z) as [sz|sz| |sz mz ez]; cbn in Hz;
    try done; [|by destruct sz..].
  cbn [SF64div SFdiv].
  destruct (Prim2SF x) as [s|s| |s m e]; cbn; try done.
  - by destruct s, (xorb sz false).
  - by destruct s.
  - rewrite Z.compare_refl, Pos.compare_cont_refl. by destruct s.
Qed.

(** ** The spans of the pieces *)

Lemma piecesFrom_lookup (o : Options) (a : list number) (i k : nat) (pos : number) :
  piecesFrom o i pos a !! k =
  (λ p, {| Piece.color := colors o !! (i + k);
           Piece.radians :=
             {| start := runningFractionFrom pos (take k a);
                end_ := (runningFractionFrom pos (take k a) + p / 100)%float |};
           Piece.borderWidth := borderWidth o;
           Piece.borderColor := borderColor o |}) <$> a !! k.
Proof.
  revert i k pos. induction a as [|p r IH]; intros i k pos; [done|].
  destruct k as [|k]; cbn [piecesFrom].
  - cbn. by rewrite Nat.add_0_r.
  - change ((_ :: piecesFrom o (S i) ?e r) !! S k)
      with (piecesFrom o (S i) e r !! k).
    rewrite IH. cbn [take runningFractionFrom foldl].
    replace (S i + k) with (i + S k) by lia. done.
Qed.

Lemma runningFractionFrom_snoc (pos : number) (a : list number) (x : number) :
  runningFractionFrom pos (a ++ [x]) =
  (runningFractionFrom pos a + x / 100)%float.
Proof. unfold runningFractionFrom. by rewrite foldl_app. Qed.

Lemma runningFraction_nonNeg (pos : number) (a : list number) :
  nonNegSF (Prim2SF pos) → Forall nonNegative a →
  nonNegSF (Prim2SF (runningFractionFrom pos a)).
Proof.
  intros Hpos Ha. revert pos Hpos.
  induction Ha as [|x a Hx Ha IH]; intros pos Hpos; [done|].
  cbn [runningFractionFrom foldl]. apply IH.
  by apply add_nonNeg, div100_nonNeg.
Qed.

Lemma runningFraction_take_notNaN (a : list number) (k : nat) :
  Forall nonNegative a → notNaN (runningFraction (take k a)).
Proof.
  intros Ha. apply nonNegSF_notNaN, runningFraction_nonNeg.
  - done.
  - by apply Forall_take.
Qed.

(** The spans of a built chart, read off its pieces. *)
Lemma built_span (el : list Node) (o : Options) (k : nat) :
  let sh := percentages (options (built el o)) in
  pieces (built el o) !! k =
  (λ p, {| Piece.color := colors o !! k;
           Piece.radians :=
             {| start := runningFraction (take k sh);
                end_ := (runningFraction (take k sh) + p / 100)%float |};
           Piece.borderWidth := borderWidth o;
           Piece.borderColor := borderColor o |}) <$> sh !! k.
Proof. cbn. by rewrite piecesFrom_lookup. Qed.

Lemma built_lengths (el : list Node) (o : Options) :
  length (pieces (built el o)) = length (percentages (options (built el o)))
  ∧ length (canvas (built el o)) = length (percentages (options (built el o))).
Proof. cbn. by rewrite length_map, length_piecesFrom. Qed.


Lemma accepted_nonempty (a : list number) :
  (sumFromLast (shares a) =? 100)%float = true → ∃ x, shares a !! 0 = Some x.
Proof.
  destruct a as [|x a]; [done|]. intros _.
  unfold shares. destruct (lastIs100 (x :: a)); cbn; eauto.
Qed.




(** ** What [this.item] holds *)

Lemma legendItems_snoc (o : Options) (m : gmap string LegendItem)
    (l : list nat) (j : nat) :
  legendItems o m (l ++ [j]) =
  match colors o !! j with
  | Some c => <[toLowerCase c := entryOf o j]> (legendItems o m l)
  | None => legendItems o m l
  end.
Proof. unfold legendItems. by rewrite foldl_app. Qed.

(** An index whose colour exists has an entry under its key: the entry of
    the last index with that key. *)
Lemma legendItems_exists (o : Options) (m : gmap string LegendItem)
    (l : list nat) (j : nat) (c : string) :
  j ∈ l → colors o !! j = Some c →
  ∃ j' c', j' ∈ l ∧ colors o !! j' = Some c'
           ∧ toLowerCase c' = toLowerCase c
           ∧ legendItems o m l !! toLowerCase c = Some (entryOf o j').
Proof.
  induction l as [|x l IH] using rev_ind; intros Hj Hc.
  - by apply elem_of_nil in Hj.
  - rewrite legendItems_snoc.
    destruct (colors o !! x) as [cx|] eqn:Hx.
    + destruct (decide (toLowerCase cx = toLowerCase c)) as [Heq|Hne].
      * exists x, cx. rewrite Heq, lookup_insert_eq.
        split_and!; try done. apply elem_of_app. right.
        by apply list_elem_of_singleton.
      * rewrite lookup_insert_ne by done.
        apply elem_of_app in Hj as [Hj|Hj].
        -- destruct (IH Hj Hc) as (j' & c' & ? & ? & ? & ?).
           exists j', c'. split_and!; try done. apply elem_of_app. by left.
        -- apply list_elem_of_singleton in Hj. congruence.
    + apply elem_of_app in Hj as [Hj|Hj].
      * destruct (IH Hj Hc) as (j' & c' & ? & ? & ? & ?).
        exists j', c'. split_and!; try done. apply elem_of_app. by left.
      * apply list_elem_of_singleton in Hj. congruence.
Qed.

(** Indices with other keys leave a key alone. *)
Lemma legendItems_other (o : Options) (m : gmap string LegendItem)
    (l : list nat) (k : string) :
  (∀ j c, j ∈ l → colors o !! j = Some c → toLowerCase c ≠ k) →
  legendItems o m l !! k = m !! k.
Proof.
  induction l as [|x l IH] using rev_ind; intros Hl; [done|].
  rewrite legendItems_snoc.
  destruct (colors o !! x) as [cx|] eqn:Hx.
  - rewrite lookup_insert_ne
      by (apply (Hl x); [apply elem_of_app; right; by apply list_elem_of_singleton|done]).
    apply IH. intros j c Hj. apply Hl. apply elem_of_app. by left.
  - apply IH. intros j c Hj. apply Hl. apply elem_of_app. by left.
Qed.

(** The entry of index [i] is the one found under its key when no later
    label has a colour with the same key. *)
Lemma legendItems_lookup (o : Options) (n i : nat) (c : string) :
  i < n → colors o !! i = Some c →
  (∀ j c', i < j < n → colors o !! j = Some c' → toLowerCase c' ≠ toLowerCase c) →
  legendItems o ∅ (seq 0 n) !! toLowerCase c = Some (entryOf o i).
Proof.
  intros Hi Hc Hlater.
  replace n with (i + S (n - S i)) by lia.
  rewrite seq_app. cbn [seq plus].
  change (seq 0 i ++ i :: seq (S i) (n - S i))
    with (seq 0 i ++ [i] ++ seq (S i) (n - S i)).
  rewrite app_assoc. unfold legendItems at 1. rewrite foldl_app.
  fold (legendItems o ∅ (seq 0 i ++ [i])).
  match goal with |- foldl ?f ?m ?l !! _ = _ => change (foldl f m l) with (legendItems o m l) end.
  rewrite legendItems_other.
  - by rewrite legendItems_snoc, Hc, lookup_insert_eq.
  - intros j c' Hj. apply elem_of_seq in Hj. apply Hlater. lia.
Qed.

Lemma Legend_new_Normal (s0 s1 : PieChart) (lg : Legend) :
  Legend_new s0 = (Normal lg, s1) →
  length (labels (options s0)) ≤ length (colors (options s0))
  ∧ lg = {| item := legendItems (options s0) ∅
                      (seq 0 (length (labels (options s0)))) |}
  ∧ legendDiv s1 =
    legendDiv s0 ++ map (labelOf (options s0)) (seq 0 (length (labels (options s0)))).
Proof.
  intros H.
  destruct (decide (length (labels (options s0)) ≤ length (colors (options s0))))
    as [Hl|Hl].
  - rewrite Legend_new_run in H by done. by simplify_eq.
  - pose proof (Legend_new_throw s0 ltac:(lia)) as Ht. rewrite H in Ht. done.
Qed.

(** ** Zero shares *)

(** C10, as stated, fails: with the legend shown, the default two labels
    and the shares [50, 50, 0], the chart is built, its third share is
    zero, and [this.item] holds nothing under the third colour: no label
    was made for that slice. *)
Lemma zero_share_without_entry :
  let r := PieChart_new [] zeroThird in
  r.1 = Normal tt
  ∧ percentages (options r.2) !! 2 = Some 0%float
  ∧ colors zeroThird !! 2 = Some "#DAEFF1"
  ∧ (∃ lg, legend r.2 = Some lg ∧ item lg !! "#daeff1" = None)
  ∧ legendDiv r.2 !! 2 = None.
Proof.
  cbv zeta. split_and!; try by vm_compute.
  eexists. split; by vm_compute.
Qed.

(** C10, as amended: in a chart that was built with no negative or NaN
    share, a zero share at position [i] has its piece at position [i] of
    [pieces], with a span that starts at the running fraction of the
    shares before it and ends at a number equal to its start, and that
    piece is drawn like the others; and when the legend is shown and
    [options.labels] has an element at position [i], the label of the
    slice is in the legend and [this.item] has an entry under the key of
    its colour, which is the entry of that slice when no later label has a
    colour with the same key. *)
Theorem zero_share_kept (el : list Node) (o : Options) (s : PieChart)
    (i : nat) (z : number)
    (Hnew : PieChart_new el o = (Normal tt, s))
    (Hnn : Forall nonNegative (percentages (options s)))
    (Hz : percentages (options s) !! i = Some z)
    (Hzero : (z =? 0)%float = true) :
  length (pieces s) = length (percentages (options s))
  ∧ (∃ p, pieces s !! i = Some p
          ∧ start (Piece.radians p) =
            runningFraction (take i (percentages (options s)))
          ∧ (start (Piece.radians p) =? end_ (Piece.radians p))%float = true
          ∧ Piece.color p = colors o !! i
          ∧ canvas s !! i = Some (wedgeOf (options s) p))
  ∧ (showLegend o = true → i < length (labels o) →
     ∃ lg c, legend s = Some lg ∧ colors o !! i = Some c
             ∧ legendDiv s !! i = Some (labelOf o i)
             ∧ is_Some (item lg !! toLowerCase c)
             ∧ ((∀ j c', i < j < length (labels o) → colors o !! j = Some c' →
                   toLowerCase c' ≠ toLowerCase c) →
                item lg !! toLowerCase c = Some (entryOf o i))).
Proof.
  apply PieChart_new_Normal in Hnew as (-> & Hleg & _ & _ & _).
  pose proof (built_span el o i) as Hp. cbv zeta in Hp. rewrite Hz in Hp.
  cbn [fmap option_fmap option_map] in Hp.
  split_and!.
  - apply built_lengths.
  - eexists. split; [exact Hp|]. cbn [Piece.radians Piece.color start end_].
    split_and!; try done.
    + apply add_zero_share; [|done]. by apply runningFraction_take_notNaN.
    + change (canvas (built el o))
        with (map (wedgeOf (options (built el o))) (pieces (built el o))).
      by rewrite list_lookup_fmap, Hp.
  - intros Hs Hi. specialize (Hleg Hs).
    destruct (lookup_lt_is_Some_2 (colors o) i ltac:(lia)) as [c Hc].
    eexists _, c. split_and!.
    + cbn. by rewrite Hs.
    + done.
    + cbn. rewrite Hs, list_lookup_fmap, lookup_seq_lt by done. done.
    + cbn [item].
      destruct (legendItems_exists o ∅ (seq 0 (length (labels o))) i c)
        as (j' & c' & _ & _ & _ & ->); [apply elem_of_seq; lia|done|done].
    + intros Hlater. cbn [item]. by apply legendItems_lookup.
Qed.

Lemma zero_share_kept_witness :
  let r := PieChart_new [] cake in
  r.1 = Normal tt
  ∧ ∃ p, pieces r.2 !! 1 = Some p
         ∧ (start (Piece.radians p) =? end_ (Piece.radians p))%float = true.
Proof.
  cbv zeta. split; [by vm_compute|].
  assert (H : PieChart_new [] cake = (Normal tt, (PieChart_new [] cake).2))
    by (by vm_compute).
  assert (Hnn : Forall nonNegative (percentages (options (PieChart_new [] cake).2)))
    by (vm_compute; repeat constructor).
  destruct (zero_share_kept [] cake _ 1 0%float H Hnn
              ltac:(by vm_compute) ltac:(by vm_compute))
    as (_ & (p & Hp & _ & Heq & _) & _).
  exists p. by split.
Defined.

(** ** Too few colours *)

(** C4, as stated, fails: with three shares, two colours and the legend
    shown, the constructor throws "Not enough colors given." after the
    canvas, the legend with its two labels and the header have been put
    into the container, and they stay there. *)
Lemma too_few_colors_leaves_header_and_legend :
  let r := PieChart_new [] twoColors in
  r.1 = Throw notEnoughColors
  ∧ element r.2 =
    [ HeaderNode "Cake" (Some "left") ""; CanvasNode ""; LegendOuterNode "" ]
  ∧ legendDiv r.2 = [ labelOf twoColors 0; labelOf twoColors 1 ]
  ∧ element r.2 ≠ [].
Proof. cbv zeta. split_and!; by vm_compute. Qed.

(** C4, as amended: when fewer colours than shares are given (and the
    legend, if shown, has no more labels than there are colours), the
    constructor throws "Not enough colors given."; no piece is made,
    nothing is drawn on the canvas, the array of percentages is not
    touched and no handler is bound; the canvas element, the legend (if
    shown) with its labels and the header are in the container. *)
Theorem too_few_colors (el : list Node) (o : Options)
    (Hfew : length (colors o) < length (percentages o))
    (Hleg : showLegend o = false ∨ length (labels o) ≤ length (colors o)) :
  let r := PieChart_new el o in
  r.1 = Throw notEnoughColors
  ∧ pieces r.2 = [] ∧ canvas r.2 = [] ∧ options r.2 = o
  ∧ mousemove r.2 = false ∧ mouseleave r.2 = false
  ∧ element r.2 =
    headerNode o ::
      (if showLegend o then placeLegend o (el ++ [CanvasNode (chartClass o)])
       else el ++ [CanvasNode (chartClass o)])
  ∧ legendDiv r.2 =
    (if showLegend o then map (labelOf o) (seq 0 (length (labels o))) else []).
Proof.
  cbv zeta. rewrite (PieChart_new_run el o Hleg). cbv zeta.
  apply Nat.ltb_lt in Hfew. rewrite Hfew. by cbn.
Qed.

Lemma too_few_colors_witness :
  (PieChart_new [] twoColors).1 = Throw notEnoughColors
  ∧ pieces (PieChart_new [] twoColors).2 = [].
Proof.
  destruct (too_few_colors [] twoColors) as (H1 & H2 & _).
  - cbn. lia.
  - right. cbn. lia.
  - by split.
Defined.

(** ** The pixel key *)

Lemma pixelKey_run {S} (r g b : Z) (s : S) :
  (r ≤ 255 → g ≤ 255 → b ≤ 255 →
   pixelKey r g b s = (Normal (keyOf r g b), s))%Z.
Proof.
  intros Hr Hg Hb. unfold pixelKey, rgbToHex. rewrite bind_run.
  destruct (r >? 255)%Z eqn:Er; [lia|].
  destruct (g >? 255)%Z eqn:Eg; [lia|].
  destruct (b >? 255)%Z eqn:Eb; [lia|]. done.
Qed.

(** ** The hover handlers *)

Lemma countAdd_app (l1 l2 : list Effect) :
  countAdd (l1 ++ l2) = countAdd l1 + countAdd l2.
Proof. unfold countAdd. by rewrite List.filter_app, length_app. Qed.

Lemma onmouseleave_run (s : PieChart) :
  onmouseleave s =
  match prevPiece s with
  | EmptyStr => (Normal tt, s)
  | LabelRef l => (Normal tt, setEffects (effects s ++ [ClearEffects l]) s)
  | Undefined => (Throw TypeError, s)
  end.
Proof. unfold onmouseleave. js_run. by destruct (prevPiece s). Qed.

Lemma hoverOff_run (s : PieChart) :
  hoverOff s =
  match prevPiece s with
  | EmptyStr => (Normal tt, s)
  | LabelRef l =>
      (Normal tt, setPrevPiece EmptyStr (setEffects (effects s ++ [ClearEffects l]) s))
  | Undefined => (Throw TypeError, s)
  end.
Proof. unfold hoverOff. js_run. by destruct (prevPiece s). Qed.

Lemma hoverOn_run (e : LegendItem) (hex : string) (s : PieChart) :
  prevPiece s ≠ Undefined →
  hoverOn e hex s =
  (Normal tt,
   setPrevPiece (LabelRef (label e))
     (if strictEq (prevPiece s) (LabelRef (label e))
      then setCurrPiece (LabelRef (label e)) s
      else setEffects
             (effects s ++
              match prevPiece s with
              | LabelRef l => [ClearEffects l]
              | _ => []
              end ++ [AddEffects (label e) hex])
             (setCurrPiece (LabelRef (label e)) s))).
Proof.
  intros Hp. unfold hoverOn. js_run.
  cbn [prevPiece currPiece setCurrPiece].
  destruct (prevPiece s) as [| |l] eqn:Hprev; [done| |].
  - cbn [strictEq negb notEmpty]. js_run. unfold addEffects. js_run. done.
  - cbn [strictEq]. destruct (node l =? node (label e))%nat eqn:En;
      cbn [negb notEmpty]; js_run; [done|].
    unfold clearEffects, addEffects. js_run.
    cbn. by rewrite <- app_assoc.
Qed.

(** The handler, branch by branch. *)
Lemma onhover_run (p : ImageData) (s : PieChart) :
  onhover p s =
  if (p0 p >? 255)%Z || (p1 p >? 255)%Z || (p2 p >? 255)%Z
  then (Throw (ThrowString "Invalid color component"), s)
  else if (p3 p =? 0)%Z then hoverOff s
  else match legend s with
       | None => (Throw TypeError, s)
       | Some lg =>
           match item lg !! keyOf (p0 p) (p1 p) (p2 p) with
           | Some e => hoverOn e (keyOf (p0 p) (p1 p) (p2 p)) s
           | None => hoverOff s
           end
       end.
Proof.
  unfold onhover, pixelKey, rgbToHex. rewrite !bind_run.
  destruct (_ || _ || _); cbn [mthrow js_throw mret js_ret]; [done|].
  fold (keyOf (p0 p) (p1 p) (p2 p)).
  unfold resolve. js_run.
  destruct (p3 p =? 0)%Z; cbn [negb]; js_run; [done|].
  destruct (legend s) as [lg|]; js_run; [|done].
  by destruct (item lg !! _).
Qed.

Lemma valid_channels (p : ImageData) :
  validPixel p → (p0 p >? 255)%Z || (p1 p >? 255)%Z || (p2 p >? 255)%Z = false.
Proof.
  intros (H0 & H1 & H2 & _).
  destruct (p0 p >? 255)%Z eqn:E0; [lia|].
  destruct (p1 p >? 255)%Z eqn:E1; [lia|].
  destruct (p2 p >? 255)%Z eqn:E2; [lia|]. done.
Qed.

(** With no legend, a pixel that is not transparent makes the handler
    throw. *)
Lemma onhover_no_legend (p : ImageData) (s : PieChart) :
  validPixel p → legend s = None → p3 p ≠ 0%Z →
  onhover p s = (Throw TypeError, s).
Proof.
  intros Hv Hl Ha. rewrite onhover_run, valid_channels, Hl by done.
  destruct (p3 p =? 0)%Z eqn:E; [lia|]. done.
Qed.

(** With a legend, a transparent pixel or a colour that is not a key
    leaves the handler in the state "no highlight", without a throw. *)
Lemma onhover_not_found (p : ImageData) (s : PieChart) (lg : Legend) :
  validPixel p → legend s = Some lg → prevPiece s ≠ Undefined →
  p3 p = 0%Z ∨ item lg !! keyOf (p0 p) (p1 p) (p2 p) = None →
  (onhover p s).1 = Normal tt
  ∧ prevPiece (onhover p s).2 = EmptyStr
  ∧ effects (onhover p s).2 =
    effects s ++ match prevPiece s with
                 | LabelRef l => [ClearEffects l]
                 | _ => []
                 end.
Proof.
  intros Hv Hl Hp Hnf. rewrite onhover_run, valid_channels, Hl by done.
  assert (Hstep :
    (if (p3 p =? 0)%Z then hoverOff s
     else match item lg !! keyOf (p0 p) (p1 p) (p2 p) with
          | Some e => hoverOn e (keyOf (p0 p) (p1 p) (p2 p)) s
          | None => hoverOff s
          end) = hoverOff s).
  { destruct Hnf as [-> | ->]; [done|]. by destruct (p3 p =? 0)%Z. }
  rewrite Hstep, hoverOff_run.
  destruct (prevPiece s) eqn:Hprev; [done| |done]. cbn. by rewrite app_nil_r.
Qed.

(** A pixel whose colour is a key: the entry becomes the current piece;
    unless it already was, the previous one is cleared and the new one
    highlighted. *)
Lemma onhover_found (p : ImageData) (s : PieChart) (lg : Legend) (e : LegendItem) :
  validPixel p → legend s = Some lg → prevPiece s ≠ Undefined → p3 p ≠ 0%Z →
  item lg !! keyOf (p0 p) (p1 p) (p2 p) = Some e →
  onhover p s =
  (Normal tt,
   setPrevPiece (LabelRef (label e))
     (if strictEq (prevPiece s) (LabelRef (label e))
      then setCurrPiece (LabelRef (label e)) s
      else setEffects
             (effects s ++
              match prevPiece s with
              | LabelRef l => [ClearEffects l]
              | _ => []
              end ++ [AddEffects (label e) (keyOf (p0 p) (p1 p) (p2 p))])
             (setCurrPiece (LabelRef (label e)) s))).
Proof.
  intros Hv Hl Hp Ha He. rewrite onhover_run, valid_channels, Hl, He by done.
  destruct (p3 p =? 0)%Z eqn:E; [lia|]. by apply hoverOn_run.
Qed.

(** ** Reachable states *)

(** The handlers never put [undefined] into [prevPiece], and leave the
    legend and the bindings alone. *)
Lemma onhover_frame (p : ImageData) (s : PieChart) :
  prevPiece s ≠ Undefined →
  prevPiece (onhover p s).2 ≠ Undefined
  ∧ legend (onhover p s).2 = legend s
  ∧ mousemove (onhover p s).2 = mousemove s
  ∧ mouseleave (onhover p s).2 = mouseleave s.
Proof.
  intros Hp.
  assert (Hoff : prevPiece (hoverOff s).2 ≠ Undefined
                 ∧ legend (hoverOff s).2 = legend s
                 ∧ mousemove (hoverOff s).2 = mousemove s
                 ∧ mouseleave (hoverOff s).2 = mouseleave s).
  { rewrite hoverOff_run. destruct (prevPiece s) eqn:E; cbn; by rewrite ?E. }
  rewrite onhover_run.
  destruct (_ || _ || _); [done|].
  destruct (p3 p =? 0)%Z; [done|].
  destruct (legend s) as [lg|] eqn:Hl; [|done].
  destruct (item lg !! _) as [e|]; [|done].
  rewrite hoverOn_run by done. cbn [snd prevPiece setPrevPiece].
  split; [done|]. by destruct (strictEq _ _).
Qed.

Lemma onmouseleave_frame (s : PieChart) :
  prevPiece s ≠ Undefined →
  prevPiece (onmouseleave s).2 = prevPiece s
  ∧ legend (onmouseleave s).2 = legend s
  ∧ mousemove (onmouseleave s).2 = mousemove s
  ∧ mouseleave (onmouseleave s).2 = mouseleave s.
Proof.
  intros Hp. rewrite onmouseleave_run.
  destruct (prevPiece s) eqn:E; cbn; by rewrite ?E.
Qed.

(** In every reachable state both handlers are bound and [prevPiece] is
    [''] or a label. *)
Lemma reachable_inv (s : PieChart) :
  reachable s →
  prevPiece s ≠ Undefined ∧ mousemove s = true ∧ mouseleave s = true.
Proof.
  induction 1 as [el o s Hnew|e s Hs (Hp & Hm & Hl)].
  - by apply PieChart_new_Normal in Hnew as (-> & _).
  - unfold dispatch. rewrite bind_run. cbn [get]. destruct e as [p|].
    + rewrite Hm. destruct (onhover_frame p s Hp) as (? & _ & -> & ->). done.
    + rewrite Hl. destruct (onmouseleave_frame s Hp) as (-> & _ & -> & ->). done.
Qed.

(** ** The highlight, in reachable states *)

Lemma highlighted_snoc (log : list Effect) (e : Effect) :
  highlighted (log ++ [e]) =
  match e with
  | AddEffects l _ => {[ node l ]} ∪ highlighted log
  | ClearEffects l => highlighted log ∖ {[ node l ]}
  end.
Proof. unfold highlighted. by rewrite foldl_app. Qed.

Lemma strictEq_label (x : PieceRef) (l : Label) :
  strictEq x (LabelRef l) = true → heldLabel x = {[ node l ]}.
Proof.
  destruct x as [| |l']; cbn; try done.
  intros H. apply Nat.eqb_eq in H. by rewrite H.
Qed.

Lemma highlight_off (A : gset nat) (n : nat) : A ⊆ {[ n ]} → A ∖ {[ n ]} ⊆ ∅.
Proof.
  intros HA x Hx. apply elem_of_difference in Hx as [Hx Hn].
  by apply HA in Hx.
Qed.

Lemma highlight_on (A : gset nat) (n : nat) : A ⊆ ∅ → {[ n ]} ∪ A ⊆ {[ n ]}.
Proof.
  intros HA x Hx. apply elem_of_union in Hx as [Hx|Hx]; [done|].
  by apply HA, elem_of_empty in Hx.
Qed.

(** The handlers keep: whatever is highlighted is the label held in
    [prevPiece]. *)
Lemma hoverOff_highlight (s : PieChart) :
  prevPiece s ≠ Undefined →
  highlighted (effects s) ⊆ heldLabel (prevPiece s) →
  highlighted (effects (hoverOff s).2) ⊆ heldLabel (prevPiece (hoverOff s).2).
Proof.
  intros Hp Hinv. rewrite hoverOff_run.
  destruct (prevPiece s) as [| |l] eqn:Hprev; [done| |]; cbn [snd].
  - by rewrite Hprev.
  - cbn [effects prevPiece setPrevPiece setEffects heldLabel] in *.
    rewrite highlighted_snoc. by apply highlight_off.
Qed.

Lemma hoverOn_highlight (e : LegendItem) (hex : string) (s : PieChart) :
  prevPiece s ≠ Undefined →
  highlighted (effects s) ⊆ heldLabel (prevPiece s) →
  highlighted (effects (hoverOn e hex s).2)
  ⊆ heldLabel (prevPiece (hoverOn e hex s).2).
Proof.
  intros Hp Hinv. rewrite hoverOn_run by done.
  cbn [snd prevPiece setPrevPiece heldLabel].
  destruct (strictEq (prevPiece s) (LabelRef (label e))) eqn:Heq.
  - cbn [effects setPrevPiece setCurrPiece].
    by rewrite <- (strictEq_label _ _ Heq).
  - cbn [effects setPrevPiece setCurrPiece setEffects].
    destruct (prevPiece s) as [| |l]; [done| |]; cbn [heldLabel app] in *.
    + rewrite highlighted_snoc. by apply highlight_on.
    + change [ClearEffects l; AddEffects (label e) hex]
        with ([ClearEffects l] ++ [AddEffects (label e) hex]).
      rewrite app_assoc, !highlighted_snoc.
      by apply highlight_on, highlight_off.
Qed.

Lemma dispatch_highlight (ev : Event) (s : PieChart) :
  prevPiece s ≠ Undefined →
  highlighted (effects s) ⊆ heldLabel (prevPiece s) →
  highlighted (effects (dispatch ev s).2)
  ⊆ heldLabel (prevPiece (dispatch ev s).2).
Proof.
  intros Hp Hinv. unfold dispatch. rewrite bind_run. cbn [get].
  destruct ev as [p|].
  - destruct (mousemove s); [|done]. rewrite onhover_run.
    destruct (_ || _ || _); [done|].
    destruct (p3 p =? 0)%Z; [by apply hoverOff_highlight|].
    destruct (legend s) as [lg|]; [|done].
    destruct (item lg !! _); [by apply hoverOn_highlight|by apply hoverOff_highlight].
  - destruct (mouseleave s); [|done]. rewrite onmouseleave_run.
    destruct (prevPiece s) as [| |l] eqn:Hprev; [done| |]; cbn [snd].
    + by rewrite Hprev.
    + cbn [effects prevPiece setEffects heldLabel] in *.
      rewrite Hprev, highlighted_snoc. cbn [heldLabel].
      intros x Hx. apply elem_of_difference in Hx as [Hx _]. by apply Hinv.
Qed.

Lemma reachable_highlight (s : PieChart) :
  reachable s → highlighted (effects s) ⊆ heldLabel (prevPiece s).
Proof.
  induction 1 as [el o s Hnew|ev s Hs IH].
  - by apply PieChart_new_Normal in Hnew as (-> & _).
  - apply dispatch_highlight; [|done]. by apply reachable_inv.
Qed.

(** ** Sequences of events *)

Lemma after_snoc (events : list Event) (e : Event) (s : PieChart) :
  after (events ++ [e]) s = (dispatch e (after events s)).2.
Proof. unfold after. by rewrite foldl_app. Qed.

Lemma after_reachable (events : list Event) (s : PieChart) :
  reachable s → reachable (after events s).
Proof.
  revert s. induction events as [|e r IH]; intros s Hs; [done|].
  apply IH. by apply reachable_event.
Qed.

Lemma dispatch_legend (e : Event) (s : PieChart) :
  reachable s → legend (dispatch e s).2 = legend s.
Proof.
  intros Hs. destruct (reachable_inv s Hs) as (Hp & Hm & Hl).
  unfold dispatch. rewrite bind_run. cbn [get]. destruct e as [p|].
  - rewrite Hm. by destruct (onhover_frame p s Hp) as (_ & -> & _).
  - rewrite Hl. by destruct (onmouseleave_frame s Hp) as (_ & -> & _).
Qed.

Lemma after_legend (events : list Event) (s : PieChart) :
  reachable s → legend (after events s) = legend s.
Proof.
  revert s. induction events as [|e r IH]; intros s Hs; [done|].
  cbn [after foldl]. fold (after r (dispatch e s).2).
  rewrite IH by (by apply reachable_event). by apply dispatch_legend.
Qed.

(** A move over a pixel whose key has an entry, in a reachable state. *)
Lemma move_found (p : ImageData) (s : PieChart) (lg : Legend) (e : LegendItem) :
  reachable s → validPixel p → p3 p ≠ 0%Z → legend s = Some lg →
  item lg !! keyOf (p0 p) (p1 p) (p2 p) = Some e →
  dispatch (MouseMove p) s =
  (Normal tt,
   setPrevPiece (LabelRef (label e))
     (if strictEq (prevPiece s) (LabelRef (label e))
      then setCurrPiece (LabelRef (label e)) s
      else setEffects
             (effects s ++
              match prevPiece s with
              | LabelRef l => [ClearEffects l]
              | _ => []
              end ++ [AddEffects (label e) (keyOf (p0 p) (p1 p) (p2 p))])
             (setCurrPiece (LabelRef (label e)) s))).
Proof.
  intros Hs Hv Ha Hl He. destruct (reachable_inv s Hs) as (Hp & Hm & _).
  unfold dispatch. rewrite bind_run. cbn [get]. rewrite Hm.
  by apply (onhover_found p s lg e).
Qed.

(** Unless its label was held already, it is then the one label with its
    effects on. *)
Lemma move_found_highlight (p : ImageData) (s : PieChart) (lg : Legend)
    (e : LegendItem) :
  reachable s → validPixel p → p3 p ≠ 0%Z → legend s = Some lg →
  item lg !! keyOf (p0 p) (p1 p) (p2 p) = Some e →
  strictEq (prevPiece s) (LabelRef (label e)) = false →
  highlighted (effects (dispatch (MouseMove p) s).2) = {[ node (label e) ]}.
Proof.
  intros Hs Hv Ha Hl He Hne.
  pose proof (reachable_highlight s Hs) as Hinv.
  destruct (reachable_inv s Hs) as (Hp & _).
  rewrite (move_found p s lg e), Hne by done.
  cbn [snd effects setPrevPiece setEffects].
  apply (anti_symm (⊆)).
  - destruct (prevPiece s) as [| |l]; [done| |]; cbn [heldLabel app] in *.
    + rewrite highlighted_snoc. by apply highlight_on.
    + change [ClearEffects l; AddEffects (label e) ?k]
        with ([ClearEffects l] ++ [AddEffects (label e) k]).
      rewrite app_assoc, !highlighted_snoc.
      by apply highlight_on, highlight_off.
  - rewrite app_assoc, highlighted_snoc. apply union_subseteq_l.
Qed.

(** After a leave nothing is highlighted, and [prevPiece] is what it
    was. *)
Lemma leave_highlight (s : PieChart) :
  reachable s →
  highlighted (effects (dispatch MouseLeave s).2) = ∅
  ∧ prevPiece (dispatch MouseLeave s).2 = prevPiece s.
Proof.
  intros Hs. pose proof (reachable_highlight s Hs) as Hinv.
  destruct (reachable_inv s Hs) as (Hp & _ & Hl).
  unfold dispatch. rewrite bind_run. cbn [get]. rewrite Hl, onmouseleave_run.
  destruct (prevPiece s) as [| |l] eqn:Hprev; [done| |];
    cbn [fst snd effects prevPiece setEffects heldLabel] in *.
  - split; [|done]. by apply (anti_symm (⊆)); [|apply empty_subseteq].
  - split; [|done]. rewrite highlighted_snoc.
    apply (anti_symm (⊆)); [by apply highlight_off|apply empty_subseteq].
Qed.

(** ** Hovering the same slice twice *)

(** In any reachable state of a chart with a legend, two pointer moves
    in a row whose pixels resolve to the same legend entry call
    [addEffects] once for it when its label is not the one held in
    [prevPiece], and not at all when it is; the second move changes
    neither the log of effect calls nor any other part of the state. *)
Lemma hover_same_slice_once (s : PieChart) (lg : Legend) (p p' : ImageData)
    (e : LegendItem)
    (Hs : reachable s) (Hl : legend s = Some lg)
    (Hp : validPixel p) (Hp' : validPixel p')
    (Ha : p3 p ≠ 0%Z) (Ha' : p3 p' ≠ 0%Z)
    (He : item lg !! keyOf (p0 p) (p1 p) (p2 p) = Some e)
    (He' : item lg !! keyOf (p0 p') (p1 p') (p2 p') = Some e) :
  let r1 := onhover p s in
  let r2 := onhover p' r1.2 in
  r1.1 = Normal tt
  ∧ prevPiece r1.2 = LabelRef (label e)
  ∧ r2 = (Normal tt, r1.2)
  ∧ countAdd (effects r2.2) =
    countAdd (effects s) +
    (if strictEq (prevPiece s) (LabelRef (label e)) then 0 else 1).
Proof.
  destruct (reachable_inv s Hs) as (Hprev & _).
  cbv zeta. rewrite (onhover_found p s lg e) by done. cbn [fst snd].
  set (s1 := setPrevPiece _ _).
  assert (Hl1 : legend s1 = Some lg).
  { subst s1. by destruct (strictEq _ _). }
  assert (Hprev1 : prevPiece s1 = LabelRef (label e)) by done.
  assert (Hcur1 : currPiece s1 = LabelRef (label e)).
  { subst s1. by destruct (strictEq _ _). }
  rewrite (onhover_found p' s1 lg e) by (done || by rewrite Hprev1).
  rewrite Hprev1. cbn [strictEq]. rewrite Nat.eqb_refl.
  assert (Hs1 : setPrevPiece (LabelRef (label e))
                  (setCurrPiece (LabelRef (label e)) s1) = s1).
  { destruct s1. cbn in *. by subst. }
  rewrite Hs1. split_and!; try done.
  subst s1. cbn [snd].
  destruct (strictEq (prevPiece s) (LabelRef (label e))); cbn [effects setPrevPiece
    setEffects setCurrPiece]; [lia|].
  rewrite !countAdd_app. by destruct (prevPiece s).
Qed.

(** C9 asks that two moves in a row over the same slice apply the
    highlight exactly once.  The code does so when the label of the slice
    is not the one held in [prevPiece].  After a leave it still is held,
    although its effects have been cleared ([onmouseleave] does not reset
    [prevPiece]): in every reachable state of a chart with a legend, once
    a slice has been hovered and the pointer has left, no label is
    highlighted, and two moves in a row over that slice call [addEffects]
    not once but never; both return, the log of effect calls stays as the
    leave left it, and the slice under the pointer has no highlight. *)
Theorem rehover_after_leave_adds_nothing (s : PieChart) (lg : Legend)
    (p p' : ImageData) (e : LegendItem)
    (Hs : reachable s) (Hl : legend s = Some lg)
    (Hp : validPixel p) (Hp' : validPixel p')
    (Ha : p3 p ≠ 0%Z) (Ha' : p3 p' ≠ 0%Z)
    (He : item lg !! keyOf (p0 p) (p1 p) (p2 p) = Some e)
    (He' : item lg !! keyOf (p0 p') (p1 p') (p2 p') = Some e) :
  let s1 := (dispatch (MouseMove p) s).2 in
  let s2 := (dispatch MouseLeave s1).2 in
  let r3 := dispatch (MouseMove p) s2 in
  let r4 := dispatch (MouseMove p') r3.2 in
  highlighted (effects s2) = ∅
  ∧ prevPiece s2 = LabelRef (label e)
  ∧ r3.1 = Normal tt ∧ r4.1 = Normal tt
  ∧ effects r4.2 = effects s2
  ∧ countAdd (effects r4.2) = countAdd (effects s2)
  ∧ highlighted (effects r4.2) = ∅.
Proof.
  cbv zeta.
  set (s1 := (dispatch (MouseMove p) s).2).
  assert (Hs1 : reachable s1) by (by apply reachable_event).
  assert (Hprev1 : prevPiece s1 = LabelRef (label e)).
  { subst s1. by rewrite (move_found p s lg e). }
  assert (Hl1 : legend s1 = Some lg).
  { subst s1. by rewrite dispatch_legend. }
  set (s2 := (dispatch MouseLeave s1).2).
  assert (Hs2 : reachable s2) by (by apply reachable_event).
  destruct (leave_highlight s1 Hs1) as [Hoff Hprev2].
  fold s2 in Hoff, Hprev2. rewrite Hprev1 in Hprev2.
  assert (Hl2 : legend s2 = Some lg).
  { subst s2. by rewrite dispatch_legend. }
  assert (Hsame : ∀ q t, reachable t → legend t = Some lg →
            prevPiece t = LabelRef (label e) → validPixel q → p3 q ≠ 0%Z →
            item lg !! keyOf (p0 q) (p1 q) (p2 q) = Some e →
            let r := dispatch (MouseMove q) t in
            r.1 = Normal tt ∧ effects r.2 = effects t ∧ reachable r.2
            ∧ legend r.2 = Some lg ∧ prevPiece r.2 = LabelRef (label e)).
  { intros q t Ht Hlt Hpt Hq Haq Heq. cbv zeta.
    split_and!; [| |by apply reachable_event|by rewrite dispatch_legend|];
      rewrite (move_found q t lg e) by done; [done| |done].
    rewrite Hpt. cbn [strictEq]. by rewrite Nat.eqb_refl. }
  destruct (Hsame p s2 Hs2 Hl2 Hprev2 Hp Ha He) as (H3 & He3 & Hs3 & Hl3 & Hp3).
  destruct (Hsame p' _ Hs3 Hl3 Hp3 Hp' Ha' He') as (H4 & He4 & _).
  cbv zeta in *. rewrite He4, He3. by split_and!.
Qed.

Lemma rehover_after_leave_adds_nothing_witness :
  let p := {| p0 := 119; p1 := 79; p2 := 56; p3 := 255 |} in
  let s1 := (dispatch (MouseMove p) (PieChart_new [] cake).2).2 in
  let s2 := (dispatch MouseLeave s1).2 in
  let s4 := (dispatch (MouseMove p) (dispatch (MouseMove p) s2).2).2 in
  effects s1 = [ AddEffects (labelOf cake 0) "#774f38" ]
  ∧ highlighted (effects s2) = ∅
  ∧ countAdd (effects s4) = countAdd (effects s2)
  ∧ highlighted (effects s4) = ∅.
Proof.
  cbv zeta. split; [by vm_compute|].
  destruct (rehover_after_leave_adds_nothing (PieChart_new [] cake).2
    {| item := legendItems cake ∅ (seq 0 3) |}
    {| p0 := 119; p1 := 79; p2 := 56; p3 := 255 |}
    {| p0 := 119; p1 := 79; p2 := 56; p3 := 255 |}
    (entryOf cake 0)) as (H1 & _ & _ & _ & _ & H2 & H3).
  - apply (reachable_new [] cake). by vm_compute.
  - by vm_compute.
  - unfold validPixel. cbn. lia.
  - unfold validPixel. cbn. lia.
  - done.
  - done.
  - by vm_compute.
  - by vm_compute.
  - exact (conj H1 (conj H2 H3)).
Defined.

(** ** Pointer moves on a chart without legend *)

(** Every chart built without legend throws on every opaque pixel. *)
Lemma no_legend_move_throws (el : list Node) (o : Options) (s : PieChart)
    (p : ImageData) :
  PieChart_new el o = (Normal tt, s) → showLegend o = false →
  validPixel p → p3 p ≠ 0%Z →
  dispatch (MouseMove p) s = (Throw TypeError, s).
Proof.
  intros Hnew Hshow Hv Ha.
  apply PieChart_new_Normal in Hnew as (-> & _).
  unfold dispatch. rewrite bind_run. cbn [get].
  change (mousemove (built el o)) with true. cbv iota.
  apply onhover_no_legend; [done| |done]. cbn. by rewrite Hshow.
Qed.

(** C2 asks that no pointer move makes the handler throw.  The code does
    otherwise on the default options ([showLegend] false): the chart is
    built, the handler is bound, [this.legend] was never set, and a move
    over the first slice (the pixel of "#F7F7B1", opaque) throws a
    [TypeError] out of the handler, when it reads [piechart.legend.item]. *)
Theorem hover_without_legend_throws :
  let r := PieChart_new [] defaults in
  let p := {| p0 := 247; p1 := 247; p2 := 177; p3 := 255 |} in
  r.1 = Normal tt
  ∧ mousemove r.2 = true
  ∧ legend r.2 = None
  ∧ Piece.color <$> pieces r.2 !! 0 = Some (Some "#F7F7B1")
  ∧ fillRGB "#F7F7B1" = Some (p0 p, p1 p, p2 p)
  ∧ dispatch (MouseMove p) r.2 = (Throw TypeError, r.2).
Proof. cbv zeta. split_and!; by vm_compute. Qed.

(** ** Leaving the canvas *)

(** In any reachable state a leave clears the effects of the highlighted
    label, if there is one, and changes nothing else: [prevPiece] keeps
    the label.  With no highlight it does nothing at all. *)
Lemma leave_run (s : PieChart) :
  reachable s →
  dispatch MouseLeave s =
  match prevPiece s with
  | LabelRef l => (Normal tt, setEffects (effects s ++ [ClearEffects l]) s)
  | _ => (Normal tt, s)
  end.
Proof.
  intros Hs. destruct (reachable_inv s Hs) as (Hp & _ & Hl).
  unfold dispatch. rewrite bind_run. cbn [get]. rewrite Hl, onmouseleave_run.
  by destruct (prevPiece s).
Qed.

(** C3 asks that a pointer leave ends in the state "no highlight".  The
    code clears the effects of the highlighted label but keeps it in
    [prevPiece] (the [item = ''] of [clearEffects] assigns its own
    parameter): on the chart [cake], after a move over the first slice
    and a leave, [prevPiece] is still that label; a move over the same
    slice then calls no [addEffects], so the highlight stays off, and a
    second leave calls [clearEffects] once more.  On a chart with no
    highlight a leave calls nothing. *)
Theorem mouseleave_keeps_prevPiece :
  let s0 := (PieChart_new [] cake).2 in
  let p := {| p0 := 119; p1 := 79; p2 := 56; p3 := 255 |} in
  let l0 := labelOf cake 0 in
  let s1 := (onhover p s0).2 in
  let s2 := (dispatch MouseLeave s1).2 in
  let s3 := (onhover p s2).2 in
  prevPiece s0 = EmptyStr
  ∧ dispatch MouseLeave s0 = (Normal tt, s0)
  ∧ prevPiece s1 = LabelRef l0
  ∧ effects s1 = [ AddEffects l0 "#774f38" ]
  ∧ effects s2 = [ AddEffects l0 "#774f38"; ClearEffects l0 ]
  ∧ prevPiece s2 = LabelRef l0
  ∧ effects s3 = [ AddEffects l0 "#774f38"; ClearEffects l0 ]
  ∧ effects (dispatch MouseLeave s2).2 =
    [ AddEffects l0 "#774f38"; ClearEffects l0; ClearEffects l0 ].
Proof. cbv zeta. split_and!; by vm_compute. Qed.

(** ** Colour keys: [toString(16)], [slice(-6)] and [toLowerCase] *)

Lemma string_app_assoc (s1 s2 s3 : string) :
  (s1 +:+ s2) +:+ s3 = s1 +:+ (s2 +:+ s3).
Proof. induction s1 as [|c s1 IH]; [done|]. exact (f_equal (String c) IH). Qed.

Lemma string_length_app (s1 s2 : string) :
  String.length (s1 +:+ s2) = String.length s1 + String.length s2.
Proof. induction s1 as [|c s1 IH]; [done|]. exact (f_equal S IH). Qed.

Lemma dropString_app (s1 s2 : string) :
  dropString (String.length s1) (s1 +:+ s2) = s2.
Proof. induction s1 as [|c s1 IH]; [by destruct s2|exact IH]. Qed.

Lemma length_zeros (k : nat) : String.length (zeros k) = k.
Proof. induction k as [|k IH]; cbn; [done|]. by rewrite IH. Qed.

Lemma zeros_add (a b : nat) : zeros (a + b) = zeros a +:+ zeros b.
Proof. induction a as [|a IH]; [done|]. exact (f_equal (String "0") IH). Qed.

Lemma zeros_snoc (k : nat) : zeros k +:+ "0" = String "0" (zeros k).
Proof. induction k as [|k IH]; [done|]. exact (f_equal (String "0") IH). Qed.

Lemma fixedHex_zero (k : nat) : fixedHex k 0 = zeros k.
Proof.
  induction k as [|k IH]; [done|].
  cbn [fixedHex]. change (0 / 16)%Z with 0%Z. rewrite IH.
  change (hexDigit (0 mod 16)) with "0"%char. apply zeros_snoc.
Qed.

(** The digits [toString(16)] gives, filled with zeros on the left, are
    the [k] digits of the number. *)
Lemma toHex_pad (k fuel : nat) (n : Z) :
  1 ≤ k ≤ fuel → (0 ≤ n < 16 ^ Z.of_nat k)%Z →
  String.length (toHex fuel n) ≤ k
  ∧ zeros (k - String.length (toHex fuel n)) +:+ toHex fuel n = fixedHex k n.
Proof.
  revert fuel n. induction k as [|k IH]; intros fuel n Hk Hn; [lia|].
  destruct fuel as [|fuel]; [lia|]. cbn [toHex fixedHex].
  destruct (n <? 16)%Z eqn:Hlt.
  - apply Z.ltb_lt in Hlt. cbn [String.length].
    rewrite Z.div_small, Z.mod_small, fixedHex_zero by lia.
    split; [lia|]. by replace (S k - 1) with k by lia.
  - apply Z.ltb_ge in Hlt.
    destruct k as [|k]; [cbn in Hn; lia|].
    destruct (IH fuel (n / 16)%Z) as [Hlen Hpad]; [lia| |].
    { split; [apply Z.div_pos; lia|].
      apply Z.div_lt_upper_bound; [lia|].
      replace (16 * 16 ^ Z.of_nat (S k))%Z with (16 ^ Z.of_nat (S (S k)))%Z; [lia|].
      rewrite (Nat2Z.inj_succ (S k)), Z.pow_succ_r; lia. }
    rewrite string_length_app. cbn [String.length]. split; [lia|].
    rewrite <- Hpad, string_app_assoc.
    by replace (S (S k) - (String.length (toHex fuel (n / 16)) + 1))
      with (S k - String.length (toHex fuel (n / 16))) by lia.
Qed.

Lemma sliceLast_pad (t : string) :
  String.length t ≤ 6 →
  sliceLast 6 ("000000" +:+ t) = zeros (6 - String.length t) +:+ t.
Proof.
  intros Hlen. unfold sliceLast. rewrite string_length_app.
  change "000000" with (zeros 6). rewrite length_zeros.
  replace (6 + String.length t - 6) with (String.length t) by lia.
  replace 6 with (String.length t + (6 - String.length t)) at 1 by lia.
  rewrite zeros_add, string_app_assoc.
  rewrite <- (length_zeros (String.length t)) at 1.
  apply dropString_app.
Qed.

Lemma fixedHex_step (k : nat) (n v : Z) :
  (0 ≤ v < 16)%Z →
  fixedHex (S k) (16 * n + v) = fixedHex k n +:+ String (hexDigit v) EmptyString.
Proof.
  intros Hv. cbn [fixedHex].
  replace ((16 * n + v) / 16)%Z with n
    by (apply Z.div_unique with v; lia).
  replace ((16 * n + v) mod 16)%Z with v
    by (apply Z.mod_unique with n; lia).
  done.
Qed.

(** ** 32-bit arithmetic on small numbers *)

Lemma ToInt32_small (z : Z) : (- 2 ^ 31 ≤ z < 2 ^ 31)%Z → ToInt32 z = z.
Proof. intros Hz. unfold ToInt32. rewrite Z.mod_small; lia. Qed.

Lemma lor_disjoint (a b k : Z) :
  (0 ≤ k)%Z → (0 ≤ b < 2 ^ k)%Z → Z.lor (a * 2 ^ k) b = (a * 2 ^ k + b)%Z.
Proof.
  intros Hk Hb.
  assert (Hland : Z.land (a * 2 ^ k) b = 0%Z).
  { apply Z.bits_inj'. intros n Hn. rewrite Z.land_spec, Z.bits_0.
    destruct (Z.lt_ge_cases n k) as [Hlt|Hge].
    - by rewrite Z.mul_pow2_bits_low.
    - rewrite <- (Z.mod_small b (2 ^ k)) by done.
      rewrite Z.mod_pow2_bits_high by lia. apply andb_false_r. }
  pose proof (Z.add_lor_land (a * 2 ^ k) b) as H. lia.
Qed.

Lemma rgb_or (r g b : Z) :
  (0 ≤ r ≤ 255 → 0 ≤ g ≤ 255 → 0 ≤ b ≤ 255 →
   or32 (or32 (shl32 r 16) (shl32 g 8)) b = r * 65536 + g * 256 + b)%Z.
Proof.
  intros Hr Hg Hb. unfold or32, shl32.
  change (16 mod 32)%Z with 16%Z. change (8 mod 32)%Z with 8%Z.
  rewrite (ToInt32_small r), (ToInt32_small g), (ToInt32_small b) by lia.
  rewrite !Z.shiftl_mul_pow2 by lia.
  rewrite !(ToInt32_small (r * 2 ^ 16)), !(ToInt32_small (g * 2 ^ 8)) by lia.
  rewrite (lor_disjoint r (g * 2 ^ 8) 16) by lia.
  rewrite ToInt32_small by lia.
  replace (r * 2 ^ 16 + g * 2 ^ 8)%Z with ((r * 2 ^ 8 + g) * 2 ^ 8)%Z by lia.
  rewrite lor_disjoint by lia. lia.
Qed.

(** The key of a pixel: [#] and the six digits of its three channels. *)
Lemma keyOf_fixed (r g b : Z) :
  (0 ≤ r ≤ 255 → 0 ≤ g ≤ 255 → 0 ≤ b ≤ 255 →
   keyOf r g b = String "#" (fixedHex 6 (r * 65536 + g * 256 + b)))%Z.
Proof.
  intros Hr Hg Hb. unfold keyOf. rewrite rgb_or by done.
  set (n := (r * 65536 + g * 256 + b)%Z).
  assert (Hn : (0 ≤ n < 16 ^ 6)%Z) by (subst n; lia).
  unfold toString16. destruct (n <? 0)%Z eqn:E; [lia|].
  destruct (toHex_pad 6 8 n ltac:(lia) Hn) as [Hlen Hpad].
  by rewrite sliceLast_pad, Hpad.
Qed.

Lemma hexValue_digit (h : ascii) (v : Z) :
  hexValue h = Some v → (0 ≤ v < 16)%Z ∧ hexDigit v = lowerAscii h.
Proof.
  intros H.
  destruct h as [[] [] [] [] [] [] [] []]; vm_compute in H;
    try discriminate H; injection H as <-; (split; [lia|reflexivity]).
Qed.

(** A colour written [#rrggbb] paints a pixel whose key is that colour in
    lower case. *)
Lemma key_of_hex6 (c : string) :
  isHex6 c = true →
  ∃ r g b, fillRGB c = Some (r, g, b)
           ∧ (0 ≤ r ≤ 255 ∧ 0 ≤ g ≤ 255 ∧ 0 ≤ b ≤ 255)%Z
           ∧ keyOf r g b = toLowerCase c.
Proof.
  intros H.
  destruct c as [|a0 c]; [discriminate|].
  destruct a0 as [[] [] [] [] [] [] [] []]; try discriminate H.
  destruct c as [|h1 [|h2 [|h3 [|h4 [|h5 [|h6 [|h7 c]]]]]]]; try discriminate H.
  cbn [isHex6] in H.
  repeat (apply andb_prop in H as [H ?]).
  repeat match goal with
         | Hb : bool_decide (is_Some (hexValue ?h)) = true |- _ =>
             apply bool_decide_eq_true_1 in Hb as [? Hb]
         end.
  repeat match goal with
         | Hv : hexValue ?h = Some ?v |- _ =>
             let Hr := fresh "Hr" in let Hd := fresh "Hd" in
             destruct (hexValue_digit h v Hv) as [Hr Hd]; revert Hv
         end.
  intros Hv6 Hv5 Hv4 Hv3 Hv2 Hv1.
  cbn [fillRGB]. unfold hexPair.
  rewrite Hv1, Hv2, Hv3, Hv4, Hv5, Hv6. cbn [mbind option_bind].
  eexists _, _, _. split; [reflexivity|]. split; [lia|].
  rewrite keyOf_fixed by lia.
  match goal with
  | |- String _ (fixedHex 6 ((16 * ?v1 + ?v2) * 65536 + (16 * ?v3 + ?v4) * 256
                             + (16 * ?v5 + ?v6))) = _ =>
      replace ((16 * v1 + v2) * 65536 + (16 * v3 + v4) * 256 + (16 * v5 + v6))%Z
        with (16 * (16 * (16 * (16 * (16 * (16 * 0 + v1) + v2) + v3) + v4) + v5) + v6)%Z
        by lia
  end.
  rewrite !fixedHex_step by done. cbn [fixedHex].
  repeat match goal with Hd : hexDigit _ = _ |- _ => rewrite Hd; clear Hd end.
  reflexivity.
Qed.

(** ** From a painted pixel back to the legend *)

(** C1, as stated, fails: the keys of [this.item] are the colour strings
    in lower case, not the hexadecimal form of the painted colour.  With
    the RAINBOW scheme the first slice is painted "red", its pixel is
    (255, 0, 0), whose key "#ff0000" is not in [this.item] (the entry is
    under "red"), and a move over the slice highlights nothing; the same
    happens to a colour written "#F00". *)
Lemma named_color_not_found :
  let r := PieChart_new [] rainbow in
  let r' := PieChart_new [] shortHex in
  let red := {| p0 := 255; p1 := 0; p2 := 0; p3 := 255 |} in
  r.1 = Normal tt
  ∧ colors rainbow !! 0 = Some "red"
  ∧ fillRGB "red" = Some (255, 0, 0)%Z
  ∧ keyOf 255 0 0 = "#ff0000"
  ∧ (∃ lg, legend r.2 = Some lg
           ∧ item lg !! "#ff0000" = None
           ∧ item lg !! "red" = Some (entryOf rainbow 0))
  ∧ onhover red r.2 = (Normal tt, r.2)
  ∧ r'.1 = Normal tt
  ∧ colors shortHex !! 0 = Some "#F00"
  ∧ fillRGB "#F00" = Some (255, 0, 0)%Z
  ∧ (∃ lg, legend r'.2 = Some lg
           ∧ item lg !! "#ff0000" = None
           ∧ item lg !! "#f00" = Some (entryOf shortHex 0))
  ∧ onhover red r'.2 = (Normal tt, r'.2).
Proof.
  cbv zeta. split_and!; try by vm_compute.
  - eexists. split_and!; by vm_compute.
  - eexists. split_and!; by vm_compute.
Qed.

(** C1, as amended: in a chart built with its legend, take a colour
    [colors[i]] that has a label ([i < labels.length]) and whose
    lower-case form is not that of the colour of a later label.
    [this.item] holds under that lower-case form the entry made for index
    [i], whose label was made from [labels[i]] inside its [span].  When
    the colour is written [#] and six hexadecimal digits, in any case,
    the key of the pixel it paints is that lower-case form, so that the
    pixel leads back to the entry.  In every state reached from the
    construction by pointer events, a move over such a pixel (alpha not
    0) returns and leaves that label in [prevPiece]; if the label was not
    held there before, the move clears the label held before, if any, and
    calls [addEffects] for this one, which is then the only label with
    its effects on; if it was held already, the move calls neither. *)
Theorem legend_round_trip (el : list Node) (o : Options) (s0 : PieChart)
    (i : nat) (c : string)
    (Hnew : PieChart_new el o = (Normal tt, s0))
    (Hshow : showLegend o = true)
    (Hi : i < length (labels o))
    (Hc : colors o !! i = Some c)
    (Hlater : ∀ j c', i < j < length (labels o) → colors o !! j = Some c' →
                toLowerCase c' ≠ toLowerCase c) :
  ∃ lg l,
    legend s0 = Some lg
    ∧ item lg !! toLowerCase c = Some (entryOf o i)
    ∧ node (label (entryOf o i)) = i
    ∧ labels o !! i = Some l
    ∧ content (label (entryOf o i)) = labelSpan l
    ∧ (isHex6 c = true →
       ∃ r g b,
         fillRGB c = Some (r, g, b)
         ∧ pixelKey r g b s0 = (Normal (toLowerCase c), s0)
         ∧ ∀ (events : list Event) (a : Z), (0 < a ≤ 255)%Z →
             let s := after events s0 in
             let held := strictEq (prevPiece s) (LabelRef (labelOf o i)) in
             let m := dispatch (MouseMove {| p0 := r; p1 := g; p2 := b; p3 := a |}) s in
             m.1 = Normal tt
             ∧ prevPiece m.2 = LabelRef (labelOf o i)
             ∧ effects m.2 =
               effects s ++
               (if held then []
                else match prevPiece s with
                     | LabelRef l' => [ClearEffects l']
                     | _ => []
                     end ++ [AddEffects (labelOf o i) (toLowerCase c)])
             ∧ (held = false → highlighted (effects m.2) = {[ i ]})).
Proof.
  assert (Hs0 : reachable s0) by (by apply (reachable_new el o)).
  apply PieChart_new_Normal in Hnew as (-> & _).
  assert (Hitem : legendItems o ∅ (seq 0 (length (labels o))) !! toLowerCase c
                  = Some (entryOf o i)) by (by apply legendItems_lookup).
  assert (Hleg : legend (built el o) =
                 Some {| item := legendItems o ∅ (seq 0 (length (labels o))) |})
    by (cbn; by rewrite Hshow).
  destruct (lookup_lt_is_Some_2 (labels o) i Hi) as [t Ht].
  exists {| item := legendItems o ∅ (seq 0 (length (labels o))) |}, t.
  split_and!; try done.
  - cbn. by rewrite Ht.
  - intros Hhex.
    destruct (key_of_hex6 c Hhex) as (r & g & b & Hfill & (Hr & Hg & Hb) & Hkey).
    exists r, g, b. split_and!; try done.
    { rewrite pixelKey_run by lia. by rewrite Hkey. }
    intros events a Ha. cbv zeta.
    set (s := after events (built el o)).
    set (p := {| p0 := r; p1 := g; p2 := b; p3 := a |}).
    assert (Hs : reachable s) by (by apply after_reachable).
    assert (Hl : legend s = Some {| item := legendItems o ∅ (seq 0 (length (labels o))) |}).
    { subst s. by rewrite after_legend. }
    assert (Hv : validPixel p) by (unfold validPixel; cbn; lia).
    assert (Hap : p3 p ≠ 0%Z) by (cbn; lia).
    assert (He : item {| item := legendItems o ∅ (seq 0 (length (labels o))) |}
                   !! keyOf (p0 p) (p1 p) (p2 p) = Some (entryOf o i)).
    { cbn [p p0 p1 p2 item]. by rewrite Hkey. }
    pose proof (move_found_highlight p s _ _ Hs Hv Hap Hl He) as Hhigh.
    rewrite (move_found p s _ _ Hs Hv Hap Hl He) in Hhigh |- *.
    cbn [fst snd prevPiece setPrevPiece label entryOf] in Hhigh |- *.
    split_and!; [done|done| |exact Hhigh].
    cbn [p p0 p1 p2]. rewrite Hkey.
    destruct (strictEq (prevPiece s) (LabelRef (labelOf o i)));
      cbn [effects setPrevPiece setCurrPiece setEffects]; [|done].
    by rewrite app_nil_r.
Qed.

Lemma legend_round_trip_witness :
  let s0 := (PieChart_new [] cake).2 in
  let first := {| p0 := 119; p1 := 79; p2 := 56; p3 := 255 |} in
  let second := {| p0 := 224; p1 := 142; p2 := 121; p3 := 255 |} in
  let s := after [ MouseMove first; MouseLeave ] s0 in
  let m := dispatch (MouseMove second) s in
  (∃ lg, legend s0 = Some lg
         ∧ item lg !! "#e08e79" = Some (entryOf cake 1))
  ∧ fillRGB "#E08E79" = Some (224, 142, 121)%Z
  ∧ prevPiece s = LabelRef (labelOf cake 0)
  ∧ m.1 = Normal tt
  ∧ prevPiece m.2 = LabelRef (labelOf cake 1)
  ∧ effects m.2 =
    effects s ++ [ ClearEffects (labelOf cake 0);
                   AddEffects (labelOf cake 1) "#e08e79" ]
  ∧ highlighted (effects m.2) = {[ 1 ]}.
Proof.
  cbv zeta.
  assert (H : PieChart_new [] cake = (Normal tt, (PieChart_new [] cake).2))
    by (by vm_compute).
  destruct (legend_round_trip [] cake _ 1 "#E08E79" H eq_refl
              ltac:(cbn; lia) eq_refl)
    as (lg & l & Hl & Hit & _ & _ & _ & Hhex).
  - intros j c' Hj Hc'. cbn in Hj.
    assert (j = 2) as -> by lia. cbn in Hc'. by simplify_eq.
  - destruct (Hhex eq_refl) as (r & g & b & Hfill & _ & Hmove).
    assert (Hrgb : (r, g, b) = (224, 142, 121)%Z).
    { vm_compute in Hfill. by injection Hfill as <- <- <-. }
    injection Hrgb as -> -> ->.
    set (s := after _ _) in *.
    assert (Hprev : prevPiece s = LabelRef (labelOf cake 0)) by (by vm_compute).
    destruct (Hmove [ MouseMove {| p0 := 119; p1 := 79; p2 := 56; p3 := 255 |};
                      MouseLeave ] 255%Z ltac:(lia))
      as (Hm1 & Hm2 & Hm3 & Hm4).
    fold s in Hm1, Hm2, Hm3, Hm4. rewrite Hprev in Hm3, Hm4.
    change (strictEq (LabelRef (labelOf cake 0)) (LabelRef (labelOf cake 1)))
      with false in Hm3, Hm4.
    split; [exists lg; exact (conj Hl Hit)|].
    split; [vm_compute; reflexivity|]. split; [exact Hprev|].
    split; [exact Hm1|]. split; [exact Hm2|]. split; [exact Hm3|].
    exact (Hm4 eq_refl).
Defined.

(** * Further properties of the plugin *)

(** ** The constructor: which error, and what a failure leaves *)

Lemma Legend_new_throw_state (s : PieChart) :
  length (colors (options s)) < length (labels (options s)) →
  Legend_new s =
  (Throw TypeError,
   setLegendDiv
     (legendDiv s ++
      map (labelOf (options s)) (seq 0 (S (length (colors (options s))))))
     (setElement (placeLegend (options s) (element s)) s)).
Proof.
  intros Hl. unfold Legend_new. js_run.
  rewrite legend_loop_throw by (cbn; lia). by rewrite Nat.sub_0_r.
Qed.

Lemma PieChart_new_legend_throw_state (el : list Node) (o : Options) :
  showLegend o = true → length (colors o) < length (labels o) →
  PieChart_new el o =
  (Throw TypeError,
   setLegendDiv (map (labelOf o) (seq 0 (S (length (colors o)))))
     (setElement (placeLegend o (el ++ [CanvasNode (chartClass o)]))
        (withCanvas el o))).
Proof.
  intros Hs Hl. rewrite PieChart_new_start, Hs.
  rewrite bind_run, (bind_run initLegend). unfold initLegend.
  rewrite (bind_run Legend_new).
  rewrite Legend_new_throw_state by done. done.
Qed.

Lemma painted_short (ws : list Wedge) :
  existsb arcThrows ws = true → length (painted ws) < length ws.
Proof.
  induction ws as [|w r IH]; [done|]. cbn [existsb painted length].
  destruct (arcThrows w); cbn [orb length]; [lia|].
  intros H. apply IH in H. lia.
Qed.

Lemma arcThrows_radius (o : Options) (p : Piece.t) :
  arcThrows (wedgeOf o p) = true →
  (widthNumber (widthAttribute (height o)) / 2 - 20 <? 0)%float = true.
Proof. unfold arcThrows. intros H. by apply andb_prop in H as [_ H]. Qed.

(** X1.  The constructor checks in a fixed order, and the first check
    that fails decides the error: a legend with more labels than colours
    gives a [TypeError]; then fewer colours than percentages gives "Not
    enough colors given."; then a running total that decreases, or shares
    that do not add up to exactly 100, give "Invalid percentage values";
    then, the pieces made and the handlers bound, [display] throws an
    [IndexSizeError] out of [arc] for the first wedge with finite
    arguments whose radius, half the width of the canvas less 20, is
    negative; otherwise the chart is built.  An [IndexSizeError] is
    thrown only when that radius is negative. *)
Theorem construction_outcome (el : list Node) (o : Options) :
  (PieChart_new el o).1 =
  (if showLegend o && (length (colors o) <? length (labels o))%nat
   then Throw TypeError
   else if (length (colors o) <? length (percentages o))%nat
   then Throw notEnoughColors
   else if lastIs100 (percentages o) && decreasing 0%float (percentages o)
   then Throw invalidPercentages
   else if (sumFromLast (shares (percentages o)) =? 100)%float
   then if existsb arcThrows (wedges o) then Throw IndexSizeError else Normal tt
   else Throw invalidPercentages)
  ∧ (existsb arcThrows (wedges o) = true →
     (widthNumber (widthAttribute (height o)) / 2 - 20 <? 0)%float = true).
Proof.
  split.
  - destruct (showLegend o) eqn:Hs; cbn [andb].
    + destruct (length (colors o) <? length (labels o))%nat eqn:Hl.
      * apply Nat.ltb_lt in Hl. by rewrite PieChart_new_legend_throw_state.
      * apply Nat.ltb_ge in Hl. rewrite PieChart_new_run by (by right).
        cbv zeta. by repeat case_match.
    + rewrite PieChart_new_run by (by left). cbv zeta. by repeat case_match.
  - intros H. apply existsb_exists in H as (w & Hw & Ht).
    unfold wedges in Hw. cbv zeta in Hw.
    apply in_map_iff in Hw as (p & <- & _).
    by apply arcThrows_radius in Ht.
Qed.

Lemma construction_outcome_witness :
  (PieChart_new [] small).1 = Throw IndexSizeError
  ∧ (widthNumber (widthAttribute (height small)) / 2 - 20 <? 0)%float = true
  ∧ (PieChart_new [] halfPixel).1 = Normal tt.
Proof.
  destruct (construction_outcome [] small) as [H1 H2].
  split; [rewrite H1; by vm_compute|]. split; [apply H2; by vm_compute|].
  rewrite (proj1 (construction_outcome [] halfPixel)). by vm_compute.
Defined.

(** X2.  What a construction that throws leaves.  When the throw comes
    out of [init] (a [TypeError] or one of the two messages), no piece
    has been made, nothing is drawn and no handler is bound: whatever
    event follows, nothing happens.  When it comes out of [display] (an
    [IndexSizeError]), all the pieces have been made and both handlers
    are bound, with [prevPiece] set to ['']; the wedges before the one
    that threw are painted, so at least one piece has no wedge. *)
Theorem failed_construction (el : list Node) (o : Options) (e : exn)
    (Hfail : (PieChart_new el o).1 = Throw e) :
  let s := (PieChart_new el o).2 in
  effects s = []
  ∧ match e with
    | IndexSizeError =>
        length (pieces s) = length (percentages o)
        ∧ canvas s = painted (wedges o)
        ∧ length (canvas s) < length (pieces s)
        ∧ mousemove s = true ∧ mouseleave s = true
        ∧ prevPiece s = EmptyStr
    | _ =>
        pieces s = [] ∧ canvas s = []
        ∧ mousemove s = false ∧ mouseleave s = false
        ∧ ∀ ev, dispatch ev s = (Normal tt, s)
    end.
Proof.
  cbv zeta.
  assert (Hinert : ∀ s, mousemove s = false → mouseleave s = false →
                        ∀ e, dispatch e s = (Normal tt, s)).
  { intros s Hm Hl ev. unfold dispatch. rewrite bind_run. cbn [get].
    destruct ev; by rewrite ?Hm, ?Hl. }
  assert (Hrun : showLegend o = false ∨ length (labels o) ≤ length (colors o) →
    effects (PieChart_new el o).2 = []
    ∧ match e with
      | IndexSizeError =>
          length (pieces (PieChart_new el o).2) = length (percentages o)
          ∧ canvas (PieChart_new el o).2 = painted (wedges o)
          ∧ length (canvas (PieChart_new el o).2)
            < length (pieces (PieChart_new el o).2)
          ∧ mousemove (PieChart_new el o).2 = true
          ∧ mouseleave (PieChart_new el o).2 = true
          ∧ prevPiece (PieChart_new el o).2 = EmptyStr
      | _ =>
          pieces (PieChart_new el o).2 = [] ∧ canvas (PieChart_new el o).2 = []
          ∧ mousemove (PieChart_new el o).2 = false
          ∧ mouseleave (PieChart_new el o).2 = false
          ∧ ∀ ev, dispatch ev (PieChart_new el o).2 = (Normal tt, (PieChart_new el o).2)
      end).
  { intros Hleg. revert Hfail. rewrite PieChart_new_run by done. cbv zeta.
    destruct (length (colors o) <? length (percentages o))%nat.
    { intros [= <-]. split; [done|]. unfold notEnoughColors, invalidPercentages.
      cbv iota. split_and!; [done..|by apply Hinert]. }
    destruct (lastIs100 _ && decreasing _ _).
    { intros [= <-]. split; [done|]. unfold notEnoughColors, invalidPercentages.
      cbv iota. split_and!; [done..|by apply Hinert]. }
    destruct (sumFromLast _ =? 100)%float.
    2: { intros [= <-]. split; [done|]. unfold notEnoughColors, invalidPercentages.
      cbv iota. split_and!; [done..|by apply Hinert]. }
    destruct (existsb arcThrows (wedges o)) eqn:Ht; [|done].
    intros [= <-]. cbn [snd].
    assert (Hlen : length (pieces (undrawn el o)) = length (percentages o)).
    { cbn. by rewrite length_piecesFrom, length_shares. }
    split_and!; try done.
    rewrite Hlen.
    assert (Hw : length (wedges o) = length (percentages o)).
    { unfold wedges. cbv zeta.
      by rewrite length_map, length_piecesFrom, length_shares. }
    rewrite <- Hw. by apply painted_short. }
  destruct (showLegend o) eqn:Hs; [|apply Hrun; by left].
  destruct (decide (length (labels o) ≤ length (colors o))) as [Hl|Hl];
    [apply Hrun; by right|].
  clear Hrun. revert Hfail.
  rewrite PieChart_new_legend_throw_state by (done || lia).
  intros [= <-]. split; [done|]. unfold notEnoughColors, invalidPercentages.
      cbv iota. split_and!; [done..|by apply Hinert].
Qed.

Lemma failed_construction_witness :
  let s := (PieChart_new [] small).2 in
  length (pieces s) = 2 ∧ canvas s = [] ∧ mousemove s = true
  ∧ dispatch MouseLeave (PieChart_new [] twoColors).2 =
    (Normal tt, (PieChart_new [] twoColors).2).
Proof.
  cbv zeta.
  destruct (failed_construction [] small IndexSizeError) as (_ & H1 & H2 & _ & H3 & _);
    [by vm_compute|].
  destruct (failed_construction [] twoColors notEnoughColors)
    as (_ & _ & _ & _ & _ & H4); [by vm_compute|].
  split_and!; [exact H1| |exact H3|apply H4].
  rewrite H2. by vm_compute.
Defined.

(** X3.  With the legend shown and more labels than colours, the
    constructor throws a [TypeError] out of [Legend]: the canvas and the
    legend block are in the container but the header is not; the legend
    holds a label for every colour and one more, the first label without
    a colour; [this.legend] is not set, the array of percentages is as
    the caller gave it, and no piece is made. *)
Theorem legend_with_too_many_labels (el : list Node) (o : Options)
    (Hshow : showLegend o = true)
    (Hmore : length (colors o) < length (labels o)) :
  let r := PieChart_new el o in
  r.1 = Throw TypeError
  ∧ element r.2 = placeLegend o (el ++ [CanvasNode (chartClass o)])
  ∧ header r.2 = false
  ∧ legendDiv r.2 = map (labelOf o) (seq 0 (S (length (colors o))))
  ∧ length (legendDiv r.2) = S (length (colors o))
  ∧ legend r.2 = None
  ∧ options r.2 = o
  ∧ pieces r.2 = [].
Proof.
  cbv zeta. rewrite PieChart_new_legend_throw_state by done.
  split_and!; try done. cbn. by rewrite length_map, length_seq.
Qed.

Lemma legend_with_too_many_labels_witness :
  (PieChart_new [] oneColor).1 = Throw TypeError
  ∧ length (legendDiv (PieChart_new [] oneColor).2) = 2.
Proof.
  destruct (legend_with_too_many_labels [] oneColor) as (H1 & _ & _ & _ & H2 & _).
  - reflexivity.
  - cbn. lia.
  - by split.
Defined.

(** ** The legend as a map *)

Lemma lowerAscii_idem (c : ascii) : lowerAscii (lowerAscii c) = lowerAscii c.
Proof. by destruct c as [[] [] [] [] [] [] [] []]. Qed.

Lemma toLowerCase_idem (s : string) : toLowerCase (toLowerCase s) = toLowerCase s.
Proof.
  induction s as [|c s IH]; [done|]. cbn. by rewrite lowerAscii_idem, IH.
Qed.

(** Whatever is in the map was put there for one of the indices. *)
Lemma legendItems_inv (o : Options) (l : list nat) (k : string) (e : LegendItem) :
  legendItems o ∅ l !! k = Some e →
  ∃ j c, j ∈ l ∧ colors o !! j = Some c ∧ toLowerCase c = k ∧ e = entryOf o j.
Proof.
  induction l as [|x l IH] using rev_ind; intros H; [done|].
  rewrite legendItems_snoc in H.
  destruct (colors o !! x) as [cx|] eqn:Hx.
  - destruct (decide (toLowerCase cx = k)) as [<-|Hne].
    + rewrite lookup_insert_eq in H. simplify_eq.
      exists x, cx. split_and!; try done. apply elem_of_app. right.
      by apply list_elem_of_singleton.
    + rewrite lookup_insert_ne in H by done.
      destruct (IH H) as (j & c & ? & ? & ? & ?).
      exists j, c. split_and!; try done. apply elem_of_app. by left.
  - destruct (IH H) as (j & c & ? & ? & ? & ?).
    exists j, c. split_and!; try done. apply elem_of_app. by left.
Qed.

Lemma legendItems_size (o : Options) (l : list nat) :
  size (legendItems o ∅ l) ≤ length l.
Proof.
  induction l as [|x l IH] using rev_ind; [done|].
  rewrite legendItems_snoc, length_app. cbn [length].
  destruct (colors o !! x) as [cx|]; [|lia].
  rewrite map_size_insert. case_match; cbn; lia.
Qed.

(** X4.  In a chart built with its legend, every entry of [this.item]
    was made for a label: it sits under the lower-case form of the colour
    at the position of that label, and that key is in lower case itself,
    so that a string with a capital letter is the key of nothing.  The
    map has at most as many entries as there are labels, and a string
    that is the lower-case form of no labelled colour is not a key. *)
Theorem legend_entries (el : list Node) (o : Options) (s : PieChart)
    (lg : Legend)
    (Hnew : PieChart_new el o = (Normal tt, s))
    (Hlg : legend s = Some lg) :
  (∀ k e, item lg !! k = Some e →
     ∃ j c, j < length (labels o) ∧ colors o !! j = Some c
            ∧ toLowerCase c = k ∧ e = entryOf o j ∧ toLowerCase k = k)
  ∧ size (item lg) ≤ length (labels o)
  ∧ (∀ k, (∀ j c, j < length (labels o) → colors o !! j = Some c →
             toLowerCase c ≠ k) →
          item lg !! k = None).
Proof.
  apply PieChart_new_Normal in Hnew as (-> & _).
  cbn in Hlg. destruct (showLegend o); [|done]. simplify_eq. cbn [item].
  assert (Hinv : ∀ k e,
    legendItems o ∅ (seq 0 (length (labels o))) !! k = Some e →
    ∃ j c, j < length (labels o) ∧ colors o !! j = Some c
           ∧ toLowerCase c = k ∧ e = entryOf o j ∧ toLowerCase k = k).
  { intros k e He.
    destruct (legendItems_inv o _ k e He) as (j & c & Hj & Hc & <- & ->).
    apply elem_of_seq in Hj. exists j, c.
    split_and!; try done; [lia|apply toLowerCase_idem]. }
  split_and!.
  - exact Hinv.
  - etrans; [apply legendItems_size|]. by rewrite length_seq.
  - intros k Hk.
    destruct (legendItems o ∅ (seq 0 (length (labels o))) !! k) as [e|] eqn:He;
      [|done].
    destruct (Hinv k e He) as (j & c & Hj & Hc & Hkey & _).
    by destruct (Hk j c Hj Hc).
Qed.

Lemma legend_entries_witness :
  ∃ lg, legend (PieChart_new [] cake).2 = Some lg
        ∧ size (item lg) ≤ 3 ∧ item lg !! "#774F38" = None.
Proof.
  assert (H : PieChart_new [] cake = (Normal tt, (PieChart_new [] cake).2))
    by (by vm_compute).
  eexists. split; [by vm_compute|].
  destruct (legend_entries [] cake _ _ H eq_refl) as (Hin & Hsize & _).
  split; [exact Hsize|].
  match goal with |- ?m !! ?k = None => destruct (m !! k) as [e|] eqn:He end;
    [|done].
  destruct (Hin _ _ He) as (j & c & _ & _ & _ & _ & Hlow).
  by vm_compute in Hlow.
Defined.



(** ** The pieces and what is drawn *)

Lemma built_contiguous (el : list Node) (o : Options) (i : nat) (p q : Piece.t) :
  pieces (built el o) !! i = Some p → pieces (built el o) !! S i = Some q →
  end_ (Piece.radians p) = start (Piece.radians q).
Proof.
  intros Hp Hq. pose proof (built_span el o) as Hspan. cbv zeta in Hspan.
  rewrite Hspan in Hp, Hq.
  destruct (percentages (options (built el o)) !! i) as [x|] eqn:Hx; [|done].
  destruct (percentages (options (built el o)) !! S i) as [y|] eqn:Hy; [|done].
  cbn [fmap option_fmap option_map] in Hp, Hq. simplify_eq.
  cbn [Piece.radians start end_].
  rewrite (take_S_r _ _ _ Hx). unfold runningFraction.
  by rewrite runningFractionFrom_snoc.
Qed.

(** X6.  In a built chart there are as many pieces as percentages, and
    the piece at position [i] has the colour [colors[i]], which exists:
    no piece is painted with an undefined colour, and the colours past
    the number of percentages are not used.  Every piece has the border
    of the options. *)
Theorem pieces_take_their_colors (el : list Node) (o : Options) (s : PieChart)
    (Hnew : PieChart_new el o = (Normal tt, s)) :
  length (pieces s) = length (percentages o)
  ∧ length (pieces s) ≤ length (colors o)
  ∧ ∀ i p, pieces s !! i = Some p →
      (∃ c, Piece.color p = Some c ∧ colors o !! i = Some c)
      ∧ Piece.borderWidth p = borderWidth o
      ∧ Piece.borderColor p = borderColor o.
Proof.
  apply PieChart_new_Normal in Hnew as (-> & _ & Hcol & _).
  destruct (built_lengths el o) as [Hlen _].
  assert (Hsh : length (percentages (options (built el o))) = length (percentages o))
    by (cbn; apply length_shares).
  split_and!; [lia..|].
  intros i p Hp.
  assert (Hi : i < length (colors o)).
  { apply lookup_lt_Some in Hp. lia. }
  pose proof (built_span el o i) as Hspan. cbv zeta in Hspan.
  rewrite Hspan in Hp.
  destruct (percentages (options (built el o)) !! i) as [x|]; [|done].
  cbn [fmap option_fmap option_map] in Hp. simplify_eq.
  cbn [Piece.color Piece.borderWidth Piece.borderColor].
  split; [|done].
  destruct (lookup_lt_is_Some_2 (colors o) i Hi) as [c Hc]. eauto.
Qed.

Lemma pieces_take_their_colors_witness :
  length (pieces (PieChart_new [] defaults).2) = 2.
Proof.
  assert (H : PieChart_new [] defaults = (Normal tt, (PieChart_new [] defaults).2))
    by (by vm_compute).
  destruct (pieces_take_their_colors [] defaults _ H) as (Hlen & _).
  exact Hlen.
Defined.

(** X7.  In a chart that was built, the canvas is as wide as
    [options.height] read as an unsigned long (300.5 gives 300), and
    [display] has drawn one wedge per piece, in the order of the pieces:
    all around the centre [width/2] with the radius [width/2 - 20], for
    which [arc] did not throw; the wedge of a piece is filled with the
    colour of the piece and reaches from [2π·start] to [2π·end]; the
    first wedge starts at the angle 0 and each wedge ends at the very
    angle the next one starts at.  No wedge is stroked when [borderWidth]
    is 0, and every wedge is stroked with [borderColor] and [borderWidth]
    otherwise. *)
Theorem wedges_follow_pieces (el : list Node) (o : Options) (s : PieChart)
    (Hnew : PieChart_new el o = (Normal tt, s)) :
  canvasWidth s = widthAttribute (height o)
  ∧ length (canvas s) = length (pieces s)
  ∧ (∀ i w, canvas s !! i = Some w →
       ∃ p, pieces s !! i = Some p
            ∧ fillStyle w = Piece.color p
            ∧ center w = (widthNumber (canvasWidth s) / 2)%float
            ∧ radius w = (widthNumber (canvasWidth s) / 2 - 20)%float
            ∧ arcThrows w = false
            ∧ startAngle w = (2 * Math_PI * start (Piece.radians p))%float
            ∧ endAngle w = (2 * Math_PI * end_ (Piece.radians p))%float
            ∧ stroke w = if (borderWidth o =? 0)%float then None
                         else Some (borderColor o, borderWidth o))
  ∧ (∃ w0, canvas s !! 0 = Some w0 ∧ startAngle w0 = 0%float)
  ∧ (∀ i w w', canvas s !! i = Some w → canvas s !! S i = Some w' →
       endAngle w = startAngle w').
Proof.
  pose proof (PieChart_new_painted el o s Hnew) as Hpainted.
  apply PieChart_new_Normal in Hnew as (-> & _ & _ & _ & Hsum).
  assert (Hcanvas : canvas (built el o) =
                    map (wedgeOf (options (built el o))) (pieces (built el o)))
    by done.
  assert (Hws : canvas (built el o) = wedges o) by done.
  pose proof (built_span el o) as Hspan. cbv zeta in Hspan.
  assert (Hwedge : ∀ i w, canvas (built el o) !! i = Some w →
    ∃ p x, pieces (built el o) !! i = Some p
           ∧ percentages (options (built el o)) !! i = Some x
           ∧ w = wedgeOf (options (built el o)) p
           ∧ Piece.borderWidth p = borderWidth o
           ∧ Piece.borderColor p = borderColor o
           ∧ start (Piece.radians p) =
             runningFraction (take i (percentages (options (built el o))))).
  { intros i w Hw. rewrite Hcanvas, list_lookup_fmap in Hw.
    destruct (pieces (built el o) !! i) as [p|] eqn:Hp; [|done].
    cbn in Hw. simplify_eq. pose proof Hp as Hp0. rewrite Hspan in Hp0.
    destruct (percentages (options (built el o)) !! i) as [x|] eqn:Hx; [|done].
    cbn [fmap option_fmap option_map] in Hp0.
    exists p, x. split_and!; try done; by rewrite <- (Some_inj _ _ Hp0). }
  split_and!.
  - done.
  - by rewrite Hcanvas, length_map.
  - intros i w Hw.
    assert (Hno : arcThrows w = false).
    { destruct (arcThrows w) eqn:Ht; [|done].
      rewrite <- Hpainted. symmetry. apply existsb_exists. exists w.
      split; [|done]. rewrite <- Hws. apply list_elem_of_In.
      by apply list_elem_of_lookup_2 in Hw. }
    destruct (Hwedge i w Hw) as (p & x & Hp & _ & -> & Hbw & Hbc & _).
    exists p. split; [done|]. split; [done|].
    split; [done|]. split; [done|]. split; [exact Hno|].
    unfold wedgeOf. cbn [startAngle endAngle stroke].
    rewrite Hbw, Hbc. split_and!; try done.
    by destruct (borderWidth o =? 0)%float.
  - destruct (accepted_nonempty _ Hsum) as [x Hx].
    assert (Hp : is_Some (pieces (built el o) !! 0)).
    { rewrite Hspan. cbn. by rewrite Hx. }
    destruct Hp as [p Hp].
    assert (Hw : canvas (built el o) !! 0 = Some (wedgeOf (options (built el o)) p))
      by (by rewrite Hcanvas, list_lookup_fmap, Hp).
    eexists. split; [exact Hw|].
    destruct (Hwedge 0 _ Hw) as (p' & x' & Hp' & _ & _ & _ & _ & Hstart).
    rewrite Hp in Hp'. simplify_eq.
    cbn [wedgeOf startAngle]. rewrite Hstart. by vm_compute.
  - intros i w w' Hw Hw'.
    destruct (Hwedge i w Hw) as (p & _ & Hp & _ & -> & _).
    destruct (Hwedge (S i) w' Hw') as (q & _ & Hq & _ & -> & _).
    cbn [wedgeOf startAngle endAngle].
    by rewrite (built_contiguous el o i p q Hp Hq).
Qed.

Lemma wedges_follow_pieces_witness :
  let s := (PieChart_new [] halfPixel).2 in
  canvasWidth s = 300%Z
  ∧ ∃ w, canvas s !! 1 = Some w
         ∧ center w = 150%float ∧ radius w = 130%float.
Proof.
  cbv zeta.
  assert (H : PieChart_new [] halfPixel = (Normal tt, (PieChart_new [] halfPixel).2))
    by (by vm_compute).
  destruct (wedges_follow_pieces [] halfPixel _ H) as (Hw & _ & Hall & _).
  split; [by rewrite Hw|].
  destruct (canvas (PieChart_new [] halfPixel).2 !! 1) as [w|] eqn:Hc;
    [|by vm_compute in Hc].
  exists w. split; [done|].
  destruct (Hall 1 w Hc) as (p & _ & _ & -> & -> & _).
  rewrite Hw. by vm_compute.
Defined.

(** ** Percentages that are not numbers of a sum *)

Lemma SFadd_finite (prec emax : Z) (x y : spec_float) :
  finiteSF (SFadd prec emax x y) → finiteSF x ∧ finiteSF y.
Proof.
  destruct x as [sx|sx| |sx mx ex], y as [sy|sy| |sy my ey];
    cbn [SFadd finiteSF]; try done; by destruct sx, sy.
Qed.

Lemma SFsub_finite (prec emax : Z) (x y : spec_float) :
  finiteSF (SFsub prec emax x y) → finiteSF x ∧ finiteSF y.
Proof.
  destruct x as [sx|sx| |sx mx ex], y as [sy|sy| |sy my ey];
    cbn [SFsub finiteSF]; try done; by destruct sx, sy.
Qed.

Lemma add_finite (x y : number) :
  finiteNumber (x + y) → finiteNumber x ∧ finiteNumber y.
Proof. unfold finiteNumber. rewrite add_spec. apply SFadd_finite. Qed.

Lemma sub_finite (x y : number) :
  finiteNumber (x - y) → finiteNumber x ∧ finiteNumber y.
Proof. unfold finiteNumber. rewrite sub_spec. apply SFsub_finite. Qed.

Lemma equal_100_finite (x : number) : (x =? 100)%float = true → finiteNumber x.
Proof.
  unfold finiteNumber. rewrite FloatAxioms.eqb_spec.
  change (Prim2SF 100) with (S754_finite false 7036874417766400 (-46)).
  destruct (Prim2SF x) as [s|s| |s m e]; cbn [finiteSF]; intros H;
    [exact I| |discriminate H|exact I].
  by destruct s.
Qed.

Lemma sumFromLast_finite (l : list number) :
  finiteNumber (sumFromLast l) → Forall finiteNumber l.
Proof.
  induction l as [|p l IH]; intros H; [done|].
  cbn [sumFromLast foldr] in H. apply add_finite in H as [Hl Hp].
  constructor; [done|]. by apply IH.
Qed.

Lemma differences_finite (prev : number) (a : list number) :
  Forall finiteNumber (differences prev a) → Forall finiteNumber a.
Proof.
  revert prev. induction a as [|t r IH]; intros prev H; [done|].
  cbn [differences] in H. apply Forall_cons in H as [Ht Hr].
  apply sub_finite in Ht as [Ht _]. constructor; [done|]. by apply (IH t).
Qed.

(** X8.  [normalize] accepts no array that is empty or holds a NaN or an
    infinity: when it returns, the array it was given had at least one
    element and only finite numbers, and so have the shares it leaves. *)
Theorem accepted_percentages_are_finite (a : list number)
    (Hok : (normalize (length a) a).1 = Normal tt) :
  a ≠ []
  ∧ Forall finiteNumber a
  ∧ Forall finiteNumber (normalize (length a) a).2.
Proof.
  rewrite normalize_run in Hok |- *.
  destruct (lastIs100 a && decreasing 0%float a) eqn:Hd; [done|].
  cbn [fst snd] in *.
  destruct (sumFromLast (shares a) =? 100)%float eqn:Hsum; [|done].
  assert (Hsh : Forall finiteNumber (shares a))
    by (by apply sumFromLast_finite, equal_100_finite).
  split_and!; [|  |done].
  - intros ->. by vm_compute in Hsum.
  - unfold shares in Hsh. destruct (lastIs100 a); [|done].
    by apply (differences_finite 0%float).
Qed.

Lemma accepted_percentages_are_finite_witness :
  Forall finiteNumber [75%float; 100%float].
Proof.
  destruct (accepted_percentages_are_finite [75%float; 100%float])
    as (_ & H & _); [reflexivity|exact H].
Defined.

(** ** What the handlers touch *)

Lemma sameChart_refl (s : PieChart) : sameChart s s.
Proof. by repeat split. Qed.

Lemma sameChart_trans (s1 s2 s3 : PieChart) :
  sameChart s1 s2 → sameChart s2 s3 → sameChart s1 s3.
Proof.
  unfold sameChart. intros (?&?&?&?&?&?&?&?&?&?) (?&?&?&?&?&?&?&?&?&?).
  split_and!; etrans; eassumption.
Qed.

Lemma keeps_bind {A B} (m : js PieChart A) (f : A → js PieChart B) :
  keepsChart m → (∀ a, keepsChart (f a)) → keepsChart (m ≫= f).
Proof.
  intros Hm Hf s. rewrite bind_run. specialize (Hm s).
  destruct (m s) as [[a|e] s']; cbn [snd] in *; [|done].
  eapply sameChart_trans; [exact Hm|apply Hf].
Qed.

Lemma keeps_ret {A} (a : A) : keepsChart (mret a).
Proof. intros s. apply sameChart_refl. Qed.

Lemma keeps_throw {A} (e : exn) : keepsChart (mthrow e : js PieChart A).
Proof. intros s. apply sameChart_refl. Qed.

Lemma keeps_clearEffects (x : PieceRef) : keepsChart (clearEffects x).
Proof. destruct x; intros s; by repeat split. Qed.

Lemma keeps_addEffects (x : PieceRef) (c : string) : keepsChart (addEffects x c).
Proof. destruct x; intros s; by repeat split. Qed.

Lemma keeps_hoverOff : keepsChart hoverOff.
Proof.
  unfold hoverOff. apply keeps_bind; [intros s; apply sameChart_refl|].
  intros s. destruct (notEmpty (prevPiece s)); [|apply keeps_ret].
  apply keeps_bind; [apply keeps_clearEffects|].
  intros _ s'. by repeat split.
Qed.

Lemma keeps_hoverOn (e : LegendItem) (hex : string) : keepsChart (hoverOn e hex).
Proof.
  unfold hoverOn. apply keeps_bind; [intros s; by repeat split|]. intros _.
  apply keeps_bind; [intros s; apply sameChart_refl|]. intros s.
  apply keeps_bind; [|intros _ s'; by repeat split].
  destruct (negb _); [|apply keeps_ret].
  apply keeps_bind; [|intros _; apply keeps_addEffects].
  destruct (notEmpty _); [apply keeps_clearEffects|apply keeps_ret].
Qed.

Lemma keeps_onhover (p : ImageData) : keepsChart (onhover p).
Proof.
  intros s. rewrite onhover_run.
  destruct (_ || _ || _); [apply sameChart_refl|].
  destruct (p3 p =? 0)%Z; [apply keeps_hoverOff|].
  destruct (legend s) as [lg|]; [|apply sameChart_refl].
  destruct (item lg !! _); [apply keeps_hoverOn|apply keeps_hoverOff].
Qed.

Lemma keeps_onmouseleave : keepsChart onmouseleave.
Proof.
  unfold onmouseleave. apply keeps_bind; [intros s; apply sameChart_refl|].
  intros s. destruct (notEmpty _); [apply keeps_clearEffects|apply keeps_ret].
Qed.

(** X9.  No event changes the chart itself: whatever the state and the
    event, and whether the handler returns or throws, the pieces, the
    drawing on the canvas, the container, the legend and its labels, the
    options (the percentages among them) and the bindings are afterwards
    what they were.  The handlers write [prevPiece], [currPiece] and the
    effects on the labels, nothing else. *)
Theorem events_leave_chart_alone (e : Event) (s : PieChart) :
  sameChart s (dispatch e s).2.
Proof.
  unfold dispatch. rewrite bind_run. cbn [get].
  destruct e as [p|].
  - destruct (mousemove s); [apply keeps_onhover|apply sameChart_refl].
  - destruct (mouseleave s); [apply keeps_onmouseleave|apply sameChart_refl].
Qed.

(** ** The highlight, over all reachable states *)

(** X10.  At no time are two labels highlighted: in every reachable
    state, replaying the calls of [addEffects] and [clearEffects] leaves
    at most one label with its effects on, and if there is one it is the
    label held in [prevPiece]. *)
Theorem at_most_one_label_highlighted (s : PieChart) (Hs : reachable s) :
  highlighted (effects s) ⊆ heldLabel (prevPiece s)
  ∧ size (highlighted (effects s)) ≤ 1.
Proof.
  pose proof (reachable_highlight s Hs) as Hinv.
  split; [done|].
  etrans; [apply subseteq_size, Hinv|].
  destruct (prevPiece s); cbn [heldLabel];
    by rewrite ?size_empty, ?size_singleton; lia.
Qed.

Lemma at_most_one_label_highlighted_witness :
  let first := {| p0 := 119; p1 := 79; p2 := 56; p3 := 255 |} in
  let third := {| p0 := 241; p1 := 212; p2 := 175; p3 := 255 |} in
  let s := after [ MouseMove first; MouseMove third ] (PieChart_new [] cake).2 in
  effects s = [ AddEffects (labelOf cake 0) "#774f38";
                ClearEffects (labelOf cake 0);
                AddEffects (labelOf cake 2) "#f1d4af" ]
  ∧ prevPiece s = LabelRef (labelOf cake 2)
  ∧ highlighted (effects s) ⊆ {[ 2 ]}
  ∧ size (highlighted (effects s)) ≤ 1.
Proof.
  cbv zeta.
  set (s := after _ _).
  assert (Hs : reachable s).
  { apply after_reachable, (reachable_new [] cake). by vm_compute. }
  assert (Hp : prevPiece s = LabelRef (labelOf cake 2)) by (by vm_compute).
  destruct (at_most_one_label_highlighted s Hs) as [Hsub Hsize].
  rewrite Hp in Hsub.
  split; [by vm_compute|]. split; [exact Hp|]. split; [exact Hsub|exact Hsize].
Defined.

(** X11.  Which events throw.  In a reachable state, an event of a
    canvas (a pointer move with its pixel, or the pointer leaving) makes
    its handler throw in one case only: a move over a pixel that is not
    transparent, on a chart that has no legend.  Every other event is
    handled to the end. *)
Theorem event_outcome (e : Event) (s : PieChart)
    (Hs : reachable s) (He : validEvent e) :
  (dispatch e s).1 =
  match e, legend s with
  | MouseMove p, None => if (p3 p =? 0)%Z then Normal tt else Throw TypeError
  | _, _ => Normal tt
  end.
Proof.
  destruct (reachable_inv s Hs) as (Hp & Hm & Hl).
  assert (Hoff : (hoverOff s).1 = Normal tt).
  { rewrite hoverOff_run. by destruct (prevPiece s). }
  unfold dispatch. rewrite bind_run. cbn [get]. destruct e as [p|].
  - rewrite Hm, onhover_run, valid_channels by done.
    destruct (p3 p =? 0)%Z; [by destruct (legend s)|].
    destruct (legend s) as [lg|]; [|done].
    destruct (item lg !! _) as [e|]; [|done]. by rewrite hoverOn_run.
  - rewrite Hl, onmouseleave_run.
    destruct (prevPiece s); [done|by destruct (legend s)..].
Qed.

Lemma event_outcome_witness :
  (dispatch (MouseMove {| p0 := 119; p1 := 79; p2 := 56; p3 := 255 |})
     (PieChart_new [] cake).2).1 = Normal tt
  ∧ (dispatch (MouseMove {| p0 := 247; p1 := 247; p2 := 177; p3 := 255 |})
       (PieChart_new [] defaults).2).1 = Throw TypeError.
Proof.
  split.
  - refine (event_outcome (MouseMove _) (PieChart_new [] cake).2 _ _).
    + apply (reachable_new [] cake). by vm_compute.
    + unfold validEvent, validPixel. cbn. lia.
  - refine (event_outcome (MouseMove _) (PieChart_new [] defaults).2 _ _).
    + apply (reachable_new [] defaults). by vm_compute.
    + unfold validEvent, validPixel. cbn. lia.
Defined.

(** X12.  Off the chart nothing stays highlighted.  In a reachable
    state, with or without legend: once the pointer has left the canvas,
    or has moved over a transparent pixel, no label has its effects on;
    after the transparent pixel [prevPiece] is [''] again, after the
    leave it is what it was. *)
Theorem off_chart_nothing_highlighted (e : Event) (s : PieChart)
    (Hs : reachable s)
    (He : match e with MouseMove p => validPixel p ∧ p3 p = 0%Z | MouseLeave => True end) :
  (dispatch e s).1 = Normal tt
  ∧ highlighted (effects (dispatch e s).2) = ∅
  ∧ prevPiece (dispatch e s).2 =
    match e with MouseMove _ => EmptyStr | MouseLeave => prevPiece s end.
Proof.
  destruct (reachable_inv s Hs) as (Hp & Hm & Hl).
  pose proof (reachable_highlight s Hs) as Hinv.
  unfold dispatch. rewrite bind_run. cbn [get]. destruct e as [p|].
  - destruct He as [Hv Ha].
    rewrite Hm, onhover_run, valid_channels, Ha by done. cbn [Z.eqb].
    rewrite hoverOff_run.
    destruct (prevPiece s) as [| |l] eqn:Hprev; [done| |];
      cbn [fst snd effects prevPiece setPrevPiece setEffects heldLabel] in *.
    + split_and!; [done| |done]. by apply (anti_symm (⊆)); [|apply empty_subseteq].
    + split_and!; [done| |done]. rewrite highlighted_snoc.
      apply (anti_symm (⊆)); [by apply highlight_off|apply empty_subseteq].
  - rewrite Hl, onmouseleave_run.
    destruct (prevPiece s) as [| |l] eqn:Hprev; [done| |];
      cbn [fst snd effects prevPiece setEffects heldLabel] in *.
    + split_and!; [done| |done]. by apply (anti_symm (⊆)); [|apply empty_subseteq].
    + split_and!; [done| |done]. rewrite highlighted_snoc.
      apply (anti_symm (⊆)); [by apply highlight_off|apply empty_subseteq].
Qed.

Lemma off_chart_nothing_highlighted_witness :
  let s := (dispatch (MouseMove {| p0 := 119; p1 := 79; p2 := 56; p3 := 255 |})
              (PieChart_new [] cake).2).2 in
  highlighted (effects (dispatch MouseLeave s).2) = ∅.
Proof.
  intros s.
  refine (proj1 (proj2 (off_chart_nothing_highlighted MouseLeave s _ I))).
  apply reachable_event, (reachable_new [] cake). by vm_compute.
Defined.

(** X13.  The highlight follows the pointer.  In a reachable state of a
    chart with a legend, a move over a pixel whose key has an entry makes
    the label of that entry the one held in [prevPiece]; unless that very
    label was held already, it is then the one and only label with its
    effects on (the label held before has been cleared first). *)
Theorem highlight_follows_pointer (p : ImageData) (s : PieChart)
    (lg : Legend) (e : LegendItem)
    (Hs : reachable s) (Hv : validPixel p) (Ha : p3 p ≠ 0%Z)
    (Hl : legend s = Some lg)
    (He : item lg !! keyOf (p0 p) (p1 p) (p2 p) = Some e) :
  let s' := (dispatch (MouseMove p) s).2 in
  prevPiece s' = LabelRef (label e)
  ∧ (strictEq (prevPiece s) (LabelRef (label e)) = false →
     highlighted (effects s') = {[ node (label e) ]}).
Proof.
  destruct (reachable_inv s Hs) as (Hp & Hm & _).
  pose proof (reachable_highlight s Hs) as Hinv.
  cbv zeta. unfold dispatch. rewrite bind_run. cbn [get].
  rewrite Hm, (onhover_found p s lg e) by done.
  cbn [snd prevPiece setPrevPiece]. split; [done|].
  intros ->. cbn [effects setPrevPiece setEffects].
  apply (anti_symm (⊆)).
  - destruct (prevPiece s) as [| |l]; [done| |]; cbn [heldLabel app] in *.
    + rewrite highlighted_snoc. by apply highlight_on.
    + change [ClearEffects l; AddEffects (label e) ?k]
        with ([ClearEffects l] ++ [AddEffects (label e) k]).
      rewrite app_assoc, !highlighted_snoc.
      by apply highlight_on, highlight_off.
  - rewrite app_assoc, highlighted_snoc. apply union_subseteq_l.
Qed.

Lemma highlight_follows_pointer_witness :
  let s := (dispatch (MouseMove {| p0 := 119; p1 := 79; p2 := 56; p3 := 255 |})
              (PieChart_new [] cake).2).2 in
  let s' := (dispatch (MouseMove {| p0 := 224; p1 := 142; p2 := 121; p3 := 255 |})
               s).2 in
  prevPiece s' = LabelRef (label (entryOf cake 1))
  ∧ highlighted (effects s') = {[ 1 ]}.
Proof.
  intros s s'.
  assert (Hs : reachable s).
  { apply reachable_event, (reachable_new [] cake). by vm_compute. }
  destruct (legend s) as [lg|] eqn:Hl; [|by vm_compute in Hl].
  assert (Hlg : lg = {| item := legendItems cake ∅ (seq 0 3) |}).
  { vm_compute in Hl. by injection Hl as <-. }
  pose proof (highlight_follows_pointer
    {| p0 := 224; p1 := 142; p2 := 121; p3 := 255 |} s lg (entryOf cake 1)
    Hs ltac:(unfold validPixel; cbn; lia) ltac:(done) Hl
    ltac:(by rewrite Hlg; vm_compute)) as [H1 H2].
  split; [exact H1|]. apply H2. by vm_compute.
Defined.

(** ** The key of a pixel *)

Lemma hexValue_hexDigit (v : Z) : (0 ≤ v < 16)%Z → hexValue (hexDigit v) = Some v.
Proof.
  intros Hv. destruct v as [|p|p]; [reflexivity| |lia].
  do 4 (try destruct p as [p|p|]); try reflexivity; lia.
Qed.

Lemma lowerAscii_hexDigit (v : Z) : lowerAscii (hexDigit v) = hexDigit v.
Proof.
  destruct v as [|p|p]; [reflexivity| |reflexivity].
  do 4 (try destruct p as [p|p|]); reflexivity.
Qed.

Lemma fixedHex_6 (n : Z) :
  fixedHex 6 n =
  String (hexDigit (n / 16 / 16 / 16 / 16 / 16 mod 16))
    (String (hexDigit (n / 16 / 16 / 16 / 16 mod 16))
      (String (hexDigit (n / 16 / 16 / 16 mod 16))
        (String (hexDigit (n / 16 / 16 mod 16))
          (String (hexDigit (n / 16 mod 16))
            (String (hexDigit (n mod 16)) EmptyString))))).
Proof. reflexivity. Qed.

Lemma hexPair_hexDigit (h l : Z) :
  (0 ≤ h < 16)%Z → (0 ≤ l < 16)%Z →
  hexPair (hexDigit h) (hexDigit l) = Some (16 * h + l)%Z.
Proof.
  intros Hh Hl. unfold hexPair. by rewrite !hexValue_hexDigit.
Qed.

Lemma split_byte (r : Z) :
  (0 ≤ r ≤ 255)%Z → ∃ h l, (0 ≤ h < 16 ∧ 0 ≤ l < 16 ∧ r = 16 * h + l)%Z.
Proof.
  intros Hr. exists (r / 16)%Z, (r mod 16)%Z.
  pose proof (Z.div_mod r 16 ltac:(lia)).
  pose proof (Z.mod_pos_bound r 16 ltac:(lia)).
  lia.
Qed.

(** The six digits of a key are the two nibbles of red, of green and of
    blue. *)
Lemma keyOf_nibbles (rh rl gh gl bh bl : Z) :
  (0 ≤ rh < 16 → 0 ≤ rl < 16 → 0 ≤ gh < 16 → 0 ≤ gl < 16 →
   0 ≤ bh < 16 → 0 ≤ bl < 16 →
   keyOf (16 * rh + rl) (16 * gh + gl) (16 * bh + bl) =
   String "#" (String (hexDigit rh) (String (hexDigit rl)
     (String (hexDigit gh) (String (hexDigit gl)
       (String (hexDigit bh) (String (hexDigit bl) EmptyString)))))))%Z.
Proof.
  intros Hrh Hrl Hgh Hgl Hbh Hbl. rewrite keyOf_fixed by lia.
  replace ((16 * rh + rl) * 65536 + (16 * gh + gl) * 256 + (16 * bh + bl))%Z
    with (16 * (16 * (16 * (16 * (16 * (16 * 0 + rh) + rl) + gh) + gl) + bh) + bl)%Z
    by lia.
  by rewrite !fixedHex_step.
Qed.

Lemma fillRGB_keyOf (r g b : Z) :
  (0 ≤ r ≤ 255 → 0 ≤ g ≤ 255 → 0 ≤ b ≤ 255 →
   fillRGB (keyOf r g b) = Some (r, g, b))%Z.
Proof.
  intros Hr Hg Hb.
  destruct (split_byte r Hr) as (rh & rl & Hrh & Hrl & ->).
  destruct (split_byte g Hg) as (gh & gl & Hgh & Hgl & ->).
  destruct (split_byte b Hb) as (bh & bl & Hbh & Hbl & ->).
  rewrite keyOf_nibbles by done. cbn [fillRGB].
  by rewrite !hexPair_hexDigit.
Qed.

(** X14.  Pixels of different colours have different keys.  For two
    pixels of a canvas (channels 0..255) the key is computed without a
    throw and has seven characters, and the keys of the two are the same
    string only if red, green and blue are the same: no two colours fall
    on one legend entry. *)
Theorem pixel_keys_distinct {S : Type} (p q : ImageData) (s : S)
    (Hp : validPixel p) (Hq : validPixel q) :
  let kp := pixelKey (p0 p) (p1 p) (p2 p) s in
  let kq := pixelKey (p0 q) (p1 q) (p2 q) s in
  (∃ k, kp = (Normal k, s) ∧ String.length k = 7)
  ∧ (kp.1 = kq.1 → p0 p = p0 q ∧ p1 p = p1 q ∧ p2 p = p2 q).
Proof.
  destruct Hp as (Hp0 & Hp1 & Hp2 & _), Hq as (Hq0 & Hq1 & Hq2 & _).
  cbv zeta. rewrite !pixelKey_run by lia. split.
  - eexists. split; [done|]. by rewrite keyOf_fixed, fixedHex_6.
  - cbn [fst]. intros Hk.
    apply (f_equal (λ c, match c with Normal k => fillRGB k | Throw _ => None end))
      in Hk.
    rewrite !fillRGB_keyOf in Hk by done. by injection Hk as -> -> ->.
Qed.

Lemma pixel_keys_distinct_witness :
  ∃ k, pixelKey 119 79 56 tt = (Normal k, tt) ∧ String.length k = 7.
Proof.
  refine (proj1 (pixel_keys_distinct
    {| p0 := 119; p1 := 79; p2 := 56; p3 := 255 |}
    {| p0 := 224; p1 := 142; p2 := 121; p3 := 255 |} tt _ _));
    unfold validPixel; cbn; lia.
Defined.

(** X15.  The key of a pixel is a colour that paints that pixel.  For
    channels in 0..255 the key is [#] followed by six hexadecimal digits
    in lower case (so [toLowerCase] leaves it as it is, and it is a
    string [Legend] can have stored an entry under), and read as a fill
    colour it gives back the three channels. *)
Theorem pixel_key_is_its_colour (r g b : Z)
    (Hr : (0 ≤ r ≤ 255)%Z) (Hg : (0 ≤ g ≤ 255)%Z) (Hb : (0 ≤ b ≤ 255)%Z) :
  pixelKey r g b tt = (Normal (keyOf r g b), tt)
  ∧ isHex6 (keyOf r g b) = true
  ∧ toLowerCase (keyOf r g b) = keyOf r g b
  ∧ fillRGB (keyOf r g b) = Some (r, g, b).
Proof.
  split; [apply pixelKey_run; lia|].
  split_and!; [| |by apply fillRGB_keyOf].
  - rewrite keyOf_fixed, fixedHex_6 by done. cbn [isHex6].
    rewrite !hexValue_hexDigit by (apply Z.mod_pos_bound; lia).
    by rewrite !bool_decide_eq_true_2.
  - rewrite keyOf_fixed, fixedHex_6 by done. cbn [toLowerCase].
    by rewrite !lowerAscii_hexDigit.
Qed.

Lemma pixel_key_is_its_colour_witness :
  fillRGB (keyOf 224 142 121) = Some (224, 142, 121)%Z
  ∧ keyOf 224 142 121 = "#e08e79".
Proof.
  split; [|reflexivity].
  refine (proj2 (proj2 (proj2 (pixel_key_is_its_colour 224 142 121 _ _ _)))); lia.
Defined.

(** ** [$.fn.piechart]: several elements, one [settings] object *)

Lemma each_cons_Normal (el : list Node) (rest : list (list Node))
    (o : Options) (s : PieChart) :
  PieChart_new el o = (Normal tt, s) →
  each (el :: rest) o =
  ((each rest (options s)).1,
   (s :: (each rest (options s)).2.1, (each rest (options s)).2.2)).
Proof.
  intros H. cbn [each]. rewrite H. by destruct (each rest _) as [c [charts st]].
Qed.

Lemma each_cons_Throw (el : list Node) (rest : list (list Node))
    (o : Options) (e : exn) (s : PieChart) :
  PieChart_new el o = (Throw e, s) →
  each (el :: rest) o = (Throw e, ([s], options s)).
Proof. intros H. cbn [each]. by rewrite H. Qed.

Lemma PieChart_new_built (el : list Node) (o : Options) :
  (PieChart_new el o).1 = Normal tt → PieChart_new el o = (Normal tt, built el o).
Proof.
  destruct (PieChart_new el o) as [[[]|e] s] eqn:Hnew; [|done].
  intros _. by apply PieChart_new_Normal in Hnew as (-> & _).
Qed.

Lemma shares_settled (a : list number) :
  lastIs100 (shares a) = false → shares (shares a) = shares a.
Proof. intros H. unfold shares at 1. by rewrite H. Qed.

Lemma built_settled (el : list Node) (o : Options) :
  lastIs100 (shares (percentages o)) = false →
  built el (setPercentages (shares (percentages o)) o) = built el o.
Proof.
  intros H. unfold built. cbn [percentages setPercentages].
  rewrite (shares_settled _ H). reflexivity.
Qed.

(** Once the array holds shares that do not end in 100, a further
    constructor on the same settings builds the same chart and leaves the
    array as it is. *)
Lemma PieChart_new_settled (el el' : list Node) (o : Options) :
  (PieChart_new el o).1 = Normal tt →
  lastIs100 (shares (percentages o)) = false →
  PieChart_new el' (setPercentages (shares (percentages o)) o) =
  (Normal tt, built el' o).
Proof.
  intros Hnew H. apply PieChart_new_built in Hnew.
  pose proof (PieChart_new_painted _ _ _ Hnew) as Hpainted.
  apply PieChart_new_Normal in Hnew as (_ & Hleg & Hcol & _ & Hsum).
  assert (Hw : wedges (setPercentages (shares (percentages o)) o) = wedges o).
  { unfold wedges. cbn [percentages setPercentages].
    by rewrite (shares_settled _ H). }
  rewrite PieChart_new_run; cbn [percentages colors labels showLegend setPercentages].
  - cbv zeta. rewrite length_shares, H, (shares_settled _ H), Hsum.
    destruct (Nat.ltb_spec (length (colors o)) (length (percentages o))); [lia|].
    cbn [andb]. by rewrite Hw, Hpainted, built_settled.
  - destruct (showLegend o); [right; by apply Hleg|by left].
Qed.

Lemma each_settled (els : list (list Node)) (el : list Node) (o : Options) :
  (PieChart_new el o).1 = Normal tt →
  lastIs100 (shares (percentages o)) = false →
  each els (setPercentages (shares (percentages o)) o) =
  (Normal tt, (map (λ e, built e o) els, setPercentages (shares (percentages o)) o)).
Proof.
  intros Hnew H. induction els as [|e els IH]; [done|].
  rewrite (each_cons_Normal _ _ _ _ (PieChart_new_settled el e o Hnew H)).
  assert (Ho : options (built e o) = setPercentages (shares (percentages o)) o)
    by done.
  by rewrite Ho, IH.
Qed.

(** X16.  One call for several elements.  When the constructor accepts
    the merged settings for the first element and the shares it leaves in
    the array do not end in 100, every element of the jQuery object gets
    its chart: the same pieces and drawing for each, in its own
    container; the one array of percentages, shared by all of them and
    with the caller, is rewritten by the first constructor only and holds
    the shares at the end. *)
Theorem every_element_gets_the_chart (el : list Node) (els : list (list Node))
    (u : UserOptions)
    (Hfirst : (PieChart_new el (extend defaults u)).1 = Normal tt)
    (Hshares : lastIs100 (shares (percentages (extend defaults u))) = false) :
  let o := extend defaults u in
  piechart (el :: els) u =
  (Normal tt,
   (map (λ e, built e o) (el :: els), setPercentages (shares (percentages o)) o)).
Proof.
  cbv zeta. unfold piechart.
  rewrite (each_cons_Normal _ _ _ _ (PieChart_new_built _ _ Hfirst)).
  assert (Ho : ∀ e o, options (built e o) = setPercentages (shares (percentages o)) o)
    by done.
  by rewrite Ho, (each_settled els el _ Hfirst Hshares).
Qed.

Lemma every_element_gets_the_chart_witness :
  let r := piechart [ []; [] ] runningTotal in
  r.1 = Normal tt ∧ length r.2.1 = 2
  ∧ percentages r.2.2 = [ 75%float; 25%float ].
Proof.
  cbv zeta.
  rewrite (every_element_gets_the_chart [] [ [] ] runningTotal)
    by (by vm_compute).
  split_and!; [done|done|by vm_compute].
Defined.

(** X17.  The second element reads the shares as running totals again.
    The constructor for the second element works on the array as the
    first one left it; when those shares end in 100 and one of them is
    smaller than the one before, it takes them for running totals and
    throws "Invalid percentage values": the first element has its chart,
    the second has its canvas and header but no piece, later elements
    are not reached, and the array is left partly rewritten a second
    time. *)
Theorem second_element_refused (el el' : list Node) (els : list (list Node))
    (o : Options)
    (Hfirst : (PieChart_new el o).1 = Normal tt)
    (Hlast : lastIs100 (shares (percentages o)) = true)
    (Hdec : decreasing 0%float (shares (percentages o)) = true) :
  let r := each (el :: el' :: els) o in
  r.1 = Throw invalidPercentages
  ∧ (∃ s', r.2.1 = [ built el o; s' ] ∧ pieces s' = [] ∧ canvas s' = []
           ∧ mousemove s' = false)
  ∧ percentages r.2.2 = rewritten 0%float (shares (percentages o)).
Proof.
  cbv zeta.
  rewrite (each_cons_Normal _ _ _ _ (PieChart_new_built _ _ Hfirst)).
  apply PieChart_new_built, PieChart_new_Normal in Hfirst
    as (_ & Hleg & Hcol & _ & Hsum).
  assert (Ho : options (built el o) = setPercentages (shares (percentages o)) o)
    by done.
  rewrite Ho. clear Ho.
  set (o1 := setPercentages (shares (percentages o)) o).
  assert (Hrun : PieChart_new el' o1 =
    (Throw invalidPercentages,
     setOptions (setPercentages (rewritten 0%float (shares (percentages o))) o1)
       (beforePieces el' o1))).
  { rewrite PieChart_new_run; cbn [o1 percentages colors labels showLegend setPercentages].
    - cbv zeta. rewrite length_shares, Hlast, Hdec.
      by destruct (Nat.ltb_spec (length (colors o)) (length (percentages o))); [lia|].
    - destruct (showLegend o); [right; by apply Hleg|by left]. }
  rewrite (each_cons_Throw _ _ _ _ _ Hrun). cbn [fst snd].
  split_and!; [done| |done]. by eexists.
Qed.

Lemma second_element_refused_witness :
  (piechart [ [] ] tinySteps).1 = Normal tt
  ∧ (piechart [ []; [] ] tinySteps).1 = Throw invalidPercentages.
Proof.
  split; [by vm_compute|].
  refine (proj1 (second_element_refused [] [] [] (extend defaults tinySteps) _ _ _));
    by vm_compute.
Defined.

(** ** The container *)

(** X18.  What the constructor does to the container, whatever its
    outcome.  The children the container had are kept, in their order,
    and the canvas comes right after them; the legend block, when the
    legend is shown, is the first of these when the chart is on the right
    and the last otherwise; the header is put before all of them, unless
    [Legend] threw (more labels than colours), in which case there is no
    header.  Nothing is taken out again when a later step throws. *)
Theorem container_layout (el : list Node) (o : Options) :
  let s := (PieChart_new el o).2 in
  let block := if showLegend o then [ LegendOuterNode (legendClass o) ] else [] in
  let right := String.eqb (chartSide o) "right" in
  element s =
    (if header s then [ headerNode o ] else []) ++
    (if right then block else []) ++ el ++ [ CanvasNode (chartClass o) ] ++
    (if right then [] else block)
  ∧ header s = negb (showLegend o && (length (colors o) <? length (labels o))%nat).
Proof.
  cbv zeta.
  assert (Hbefore : ∀ s, element s = element (beforePieces el o) →
                         header s = header (beforePieces el o) →
    element s =
      (if header s then [ headerNode o ] else []) ++
      (if String.eqb (chartSide o) "right"
       then if showLegend o then [ LegendOuterNode (legendClass o) ] else []
       else []) ++ el ++ [ CanvasNode (chartClass o) ] ++
      (if String.eqb (chartSide o) "right" then []
       else if showLegend o then [ LegendOuterNode (legendClass o) ] else [])
    ∧ header s = true).
  { intros s -> ->. cbn [element header beforePieces]. unfold placeLegend.
    split; [|done].
    destruct (String.eqb (chartSide o) "right"), (showLegend o); cbn [app];
      by rewrite <- ?app_assoc, ?app_nil_r. }
  destruct (showLegend o && (length (colors o) <? length (labels o))%nat) eqn:Hthrow.
  - apply andb_prop in Hthrow as [Hs Hl]. apply Nat.ltb_lt in Hl.
    rewrite PieChart_new_legend_throw_state, Hs by done.
    cbn [snd element header setLegendDiv setElement setCanvasWidth withCanvas
         newChart negb].
    unfold placeLegend. split; [|done].
    destruct (String.eqb (chartSide o) "right"); cbn [app];
      by rewrite <- ?app_assoc, ?app_nil_r.
  - rewrite PieChart_new_run; cbv zeta.
    + destruct (length (colors o) <? length (percentages o))%nat;
        [by apply Hbefore|].
      destruct (lastIs100 _ && decreasing _ _); [by apply Hbefore|].
      destruct (sumFromLast _ =? 100)%float; [|by apply Hbefore].
      destruct (existsb arcThrows (wedges o)); by apply Hbefore.
    + apply andb_false_iff in Hthrow as [Hs|Hl]; [by left|right].
      by apply Nat.ltb_ge in Hl.
Qed.
